(** * The canvas header animation of hexo-theme-westwoods

    A shallow embedding of [source/js/canvasHeader.js] and the properties
    of its grid construction ([newGrid]), per-frame update ([animateGrid])
    and rendering ([drawGrid]).

    JavaScript numbers are modelled as extended reals with a NaN: rounding,
    overflow and the sign of zero are abstracted away, everything else
    (NaN propagation, division by zero, the falsiness of [0] and [NaN]) is
    kept, because the code relies on it.  [Point] objects live in a store,
    since [animateGrid] writes to their fields in place. *)

From Stdlib Require Import Reals Lra Lia ZArith String Ascii HexString.
From stdpp Require Import base option list.

(** ** JavaScript numbers *)

Module Num.

Inductive t : Type :=
| Fin (r : R)
| PInf
| NInf
| NaN.

Definition Rltb (a b : R) : bool := if Rlt_dec a b then true else false.
Definition Reqb (a b : R) : bool := if Req_dec_T a b then true else false.

Definition of_Z (z : Z) : t := Fin (IZR z).
Definition of_nat (n : nat) : t := Fin (INR n).

(** unary minus *)
Definition neg (a : t) : t :=
  match a with
  | Fin r => Fin (- r)
  | PInf => NInf
  | NInf => PInf
  | NaN => NaN
  end.

(** [a + b] *)
Definition add (a b : t) : t :=
  match a, b with
  | NaN, _ | _, NaN => NaN
  | Fin x, Fin y => Fin (x + y)
  | PInf, NInf | NInf, PInf => NaN
  | PInf, _ | _, PInf => PInf
  | NInf, _ | _, NInf => NInf
  end.

(** [a - b] *)
Definition sub (a b : t) : t := add a (neg b).

(** the infinity that a finite factor [x] turns [PInf] into *)
Definition scale_inf (x : R) : t :=
  if Rltb 0 x then PInf else if Rltb x 0 then NInf else NaN.

(** [a * b] *)
Definition mul (a b : t) : t :=
  match a, b with
  | NaN, _ | _, NaN => NaN
  | Fin x, Fin y => Fin (x * y)
  | Fin x, PInf | PInf, Fin x => scale_inf x
  | Fin x, NInf | NInf, Fin x => neg (scale_inf x)
  | PInf, PInf | NInf, NInf => PInf
  | PInf, NInf | NInf, PInf => NInf
  end.

(** [a / b]; the single zero of the model divides like [+0] *)
Definition div (a b : t) : t :=
  match a, b with
  | NaN, _ | _, NaN => NaN
  | Fin x, Fin y => if Reqb y 0 then scale_inf x else Fin (x / y)
  | Fin _, PInf | Fin _, NInf => Fin 0
  | PInf, Fin y => if Rltb y 0 then NInf else PInf
  | NInf, Fin y => if Rltb y 0 then PInf else NInf
  | _, _ => NaN
  end.

(** [a < b] *)
Definition lt (a b : t) : bool :=
  match a, b with
  | NaN, _ | _, NaN => false
  | Fin x, Fin y => Rltb x y
  | NInf, NInf | PInf, _ | _, NInf => false
  | NInf, _ | _, PInf => true
  end.

(** [a > b] *)
Definition gt (a b : t) : bool := lt b a.

(** [a === b] on numbers *)
Definition eq (a b : t) : bool :=
  match a, b with
  | Fin x, Fin y => Reqb x y
  | PInf, PInf | NInf, NInf => true
  | _, _ => false
  end.

(** [Math.sqrt] *)
Definition sqrt (a : t) : t :=
  match a with
  | Fin x => if Rltb x 0 then NaN else Fin (R_sqrt.sqrt x)
  | PInf => PInf
  | NInf | NaN => NaN
  end.

(** [Math.abs] *)
Definition abs (a : t) : t :=
  match a with
  | Fin x => Fin (Rabs x)
  | PInf | NInf => PInf
  | NaN => NaN
  end.

(** [Math.floor] *)
Definition floor (a : t) : t :=
  match a with
  | Fin x => Fin (IZR (Zfloor x))
  | _ => a
  end.

(** [Math.pow(a, n)] for a natural exponent [n] *)
Fixpoint pow (a : t) (n : nat) : t :=
  match n with
  | O => Fin 1
  | S k => mul a (pow a k)
  end.

(** [isNaN] *)
Definition isNaN (a : t) : bool :=
  match a with NaN => true | _ => false end.

(** truthiness of a number: [0] and [NaN] are falsy *)
Definition truthy (a : t) : bool :=
  match a with
  | Fin x => negb (Reqb x 0)
  | PInf | NInf => true
  | NaN => false
  end.

(** [a || 0]; an omitted argument ([undefined]) behaves like [NaN] here *)
Definition or0 (a : t) : t := if truthy a then a else Fin 0.

(** the integer part of a real, rounded toward zero *)
Definition trunc (x : R) : Z :=
  if Rltb x 0 then (- Zfloor (- x))%Z else Zfloor x.

(** whether [Number.prototype.toString] prints [x] in plain decimal
    notation (and not with an exponent) *)
Definition plain_decimal (x : R) : bool :=
  Reqb x 0 || (negb (Rltb (Rabs x) (/ 1000000)) && Rltb (Rabs x) (10 ^ 21)).

Definition is_finite (a : t) : Prop := exists r, a = Fin r.

(** [a] is an integer between [lo] and [hi] *)
Definition int_between (lo hi : Z) (a : t) : Prop :=
  exists z : Z, a = of_Z z /\ (lo <= z <= hi)%Z.


End Num.

Abbreviation num := Num.t.

(** ** The host environment

    What the script takes from the browser: the values that successive
    calls of [Math.random()] return, the size of the [canvas] element, and
    the two corners of number printing that an exact model of doubles would
    be needed for. *)

Class Host : Type := {
  (** the value of the [n]-th call of [Math.random()] *)
  Math_random : nat -> R;
  Math_random_range : forall n, (0 <= Math_random n < 1)%R;
  (** [canvas.width] and [canvas.height] *)
  canvas_width : Z;
  canvas_height : Z;
  (** the integer [parseInt] reads off a number that prints in exponent
      notation (its leading digit, signed) *)
  exponent_lead : R -> Z;
  (** [toString(16)] of a number that is not an integer *)
  fraction_toString16 : R -> string
}.

(** ** [limit], [parseInt] *)

(** canvasHeader.js, line 22 *)
Definition limit (value min max : num) : num :=
  if Num.lt value min then min
  else if Num.gt value max then max
  else value.

(** [parseInt(v, 10)] of a number [v]: the number is printed and the
    leading integer of the text is read back *)
Definition parseInt `{Host} (v : num) : num :=
  match v with
  | Num.Fin r =>
      if Num.plain_decimal r then Num.of_Z (Num.trunc r)
      else Num.of_Z (exponent_lead r)
  | _ => Num.NaN
  end.

(** [n.toString(16)] *)
Definition hex_of_Z (z : Z) : string :=
  match z with
  | Z0 => "0"
  | Zpos p => HexString.Raw.of_pos p ""
  | Zneg p => String "-" (HexString.Raw.of_pos p "")
  end.

Definition toString16 `{Host} (v : num) : string :=
  match v with
  | Num.Fin r =>
      if Num.Reqb r (IZR (Zfloor r)) then hex_of_Z (Zfloor r)
      else fraction_toString16 r
  | Num.PInf => "Infinity"
  | Num.NInf => "-Infinity"
  | Num.NaN => "NaN"
  end.

(** ** Points and vectors *)

Module Vector.

Record t : Type := mk { x : num; y : num }.

(** line 64: [new Vector(x, y)] *)
Definition new (x0 y0 : num) : t := mk (Num.or0 x0) (Num.or0 y0).

(** line 85 *)
Definition getDistance (v : t) : num :=
  Num.abs (Num.sqrt (Num.add (Num.pow (x v) 2) (Num.pow (y v) 2))).

(** line 93 *)
Definition normalized (v : t) : t :=
  let dist := getDistance v in
  new (Num.div (x v) dist) (Num.div (y v) dist).

(** line 101 *)
Definition invert (v : t) : t :=
  new (Num.mul (x v) (Num.Fin (-1))) (Num.mul (y v) (Num.Fin (-1))).

(** line 110 *)
Definition multiply (v w : t) : t :=
  new (Num.mul (x v) (x w)) (Num.mul (y v) (y w)).

(** line 114 *)
Definition multiplyScalar (v : t) (n : num) : t :=
  new (Num.mul (x v) n) (Num.mul (y v) n).

End Vector.

Module Point.

Record t : Type := mk { x : num; y : num }.

(** line 39: [new Point(x, y)] *)
Definition new (x0 y0 : num) : t := mk (Num.or0 x0) (Num.or0 y0).

(** line 44: the point that [this.move(vector)] creates *)
Definition move (p : t) (v : Vector.t) : t :=
  new (Num.add (x p) (Vector.x v)) (Num.add (y p) (Vector.y v)).

(** line 53 *)
Definition isEqual (p q : t) : bool :=
  Num.eq (x p) (x q) && Num.eq (y p) (y q).

(** assignments [p.x = v] and [p.y = v] to the fields of a point *)
Definition set_x (v : num) (p : t) : t := mk v (y p).
Definition set_y (v : num) (p : t) : t := mk (x p) v.

End Point.

(** line 75: [Vector.fromPoints(p1, p2)] *)
Definition fromPoints (p1 p2 : Point.t) : Vector.t :=
  let x := Num.sub (Point.x p1) (Point.x p2) in
  let y := Num.sub (Point.y p1) (Point.y p2) in
  Vector.new x y.

(** ** Colors *)

Module Color.

Record t : Type := mk { _r : num; _g : num; _b : num }.

Section WithHost.
Context `{Host}.

(** lines 204-223: the accessors of [r], [g] and [b] *)
Definition r (c : t) : num := _r c.
Definition g (c : t) : num := _g c.
Definition b (c : t) : num := _b c.

Definition set_r (v : num) (c : t) : t :=
  mk (limit (parseInt v) (Num.Fin 0) (Num.Fin 255)) (_g c) (_b c).
Definition set_g (v : num) (c : t) : t :=
  mk (_r c) (limit (parseInt v) (Num.Fin 0) (Num.Fin 255)) (_b c).
Definition set_b (v : num) (c : t) : t :=
  mk (_r c) (_g c) (limit (parseInt v) (Num.Fin 0) (Num.Fin 255)).

(** line 193: [new Color(r, g, b)] *)
Definition new (r0 g0 b0 : num) : t :=
  let c := mk (Num.Fin 0) (Num.Fin 0) (Num.Fin 0) in
  let c := set_r (Num.or0 r0) c in
  let c := set_g (Num.or0 g0) c in
  set_b (Num.or0 b0) c.

(** line 229 *)
Definition getHexCode (c : t) : string :=
  let code := "#"%string in
  let code := if Num.lt (r c) (Num.Fin 16) then (code ++ "0")%string else code in
  let code := (code ++ toString16 (r c))%string in
  let code := if Num.lt (g c) (Num.Fin 16) then (code ++ "0")%string else code in
  let code := (code ++ toString16 (g c))%string in
  let code := if Num.lt (b c) (Num.Fin 16) then (code ++ "0")%string else code in
  let code := (code ++ toString16 (b c))%string in
  code.

(** every channel is an integer of the range 0..255 *)
Definition valid (c : t) : Prop :=
  Num.int_between 0 255 (_r c) /\
  Num.int_between 0 255 (_g c) /\
  Num.int_between 0 255 (_b c).

End WithHost.
End Color.

(** ** The store and the effects of the script *)

(** a reference to a [Point] object *)
Abbreviation loc := nat (only parsing).

(** what the script does to the 2D context [ctx] *)
Inductive CanvasOp : Type :=
| SetFillStyle (style : string)
| BeginPath
| MoveTo (x y : num)
| LineTo (x y : num)
| ClosePath
| Fill
| SetStrokeStyle (style : string)
| Stroke
| SetFont (font : string)
| StrokeText (x y : num).

Record state : Type := mkState {
  (** the [Point] objects created so far; a reference is an index *)
  heap : list Point.t;
  (** the number of calls of [Math.random()] made so far *)
  randoms : nat;
  (** the commands sent to the 2D context, oldest first *)
  ctx : list CanvasOp
}.

(** a computation that reads and writes the state, or throws *)
Definition M (A : Type) : Type := state -> option (A * state).

Definition ret {A} (a : A) : M A := fun s => Some (a, s).

Definition bind {A B} (m : M A) (k : A -> M B) : M B :=
  fun s => match m s with
           | Some (a, s') => k a s'
           | None => None
           end.

(** a thrown [TypeError] or [RangeError] *)
Definition throw {A} : M A := fun _ => None.

Notation "'let*' x ':=' m 'in' k" := (bind m (fun x => k))
  (at level 10, x pattern, m at level 100, k at level 200).
Notation "m ';;' k" := (bind m (fun _ => k))
  (at level 100, k at level 200, right associativity).

(** the value of [o], a [TypeError] when it is [undefined] *)
Definition defined {A} (o : option A) : M A :=
  match o with
  | Some a => ret a
  | None => throw
  end.

(** [new Point(..)]: the object is added to the store *)
Definition alloc (p : Point.t) : M loc :=
  fun s => Some (length (heap s), mkState (heap s ++ [p]) (randoms s) (ctx s)).

(** reading the fields of the point at [l] *)
Definition load (l : loc) : M Point.t :=
  fun s => match heap s !! l with
           | Some p => Some (p, s)
           | None => None
           end.

(** replacing the fields of the point at [l] *)
Definition store (l : loc) (p : Point.t) : M unit :=
  fun s => match heap s !! l with
           | Some _ => Some (tt, mkState (<[l := p]> (heap s)) (randoms s) (ctx s))
           | None => None
           end.

(** a command on the 2D context *)
Definition emit (op : CanvasOp) : M unit :=
  fun s => Some (tt, mkState (heap s) (randoms s) (ctx s ++ [op])).

(** [for (var i = start; i < start + count; i++) body] on a loop-carried
    value *)
Fixpoint for_loop {A} (start count : nat) (body : nat -> A -> M A) (a : A) : M A :=
  match count with
  | O => ret a
  | S c => let* a' := body start a in for_loop (S start) c body a'
  end.

(** ** Arrays *)

(** an array with holes: [None] is an element that is [undefined] *)
Abbreviation array A := (list (option A)) (only parsing).

(** [a[i]], [undefined] outside of the array *)
Definition aget {A} (a : array A) (i : Z) : option A :=
  if (i <? 0)%Z then None
  else match a !! Z.to_nat i with
       | Some o => o
       | None => None
       end.

(** [a[i] = v]; an index past the end extends the array *)
Definition aset {A} (a : array A) (i : nat) (v : A) : array A :=
  if decide (i < length a) then <[i := Some v]> a
  else a ++ replicate (i - length a) None ++ [Some v].

(** the length of [new Array(n)]: [n] itself when it is an integer of the
    range 0 .. 2^32-1, otherwise there is none (a [RangeError]) *)
Definition array_length (n : num) : option nat :=
  match n with
  | Num.Fin r =>
      if Num.Reqb r (IZR (Zfloor r)) && negb (Num.Rltb r 0) && Num.Rltb r (2 ^ 32)
      then Some (Z.to_nat (Zfloor r))
      else None
  | _ => None
  end.

(** [new Array(n)]: an array of [n] holes *)
Definition new_Array {A} (n : num) : M (array A) :=
  match array_length n with
  | Some k => ret (replicate k None)
  | None => throw
  end.

Section Script.
Context `{Host}.

(** [Math.random()] *)
Definition random : M num :=
  fun s => Some (Num.Fin (Math_random (randoms s)),
                 mkState (heap s) (S (randoms s)) (ctx s)).

(** line 248 *)
Definition getRandomInt (min max : num) : M num :=
  let* u := random in
  ret (Num.add (Num.floor (Num.mul u (Num.add (Num.sub max min) (Num.Fin 1)))) min).

(** line 259 *)
Definition getRandomColor (color : option Color.t) (randomness : num) : M Color.t :=
  let color := match color with
               | Some c => c
               | None => Color.new Num.NaN Num.NaN Num.NaN
               end in
  let randomness := if Num.isNaN randomness then Num.Fin 100 else randomness in
  let f := Num.div randomness (Num.Fin 100) in
  let* r := getRandomInt (Num.mul (Color.r color) (Num.sub (Num.Fin 1) f))
              (Num.add (Color.r color) (Num.mul (Num.sub (Num.Fin 255) (Color.r color)) f)) in
  let* g := getRandomInt (Num.mul (Color.g color) (Num.sub (Num.Fin 1) f))
              (Num.add (Color.g color) (Num.mul (Num.sub (Num.Fin 255) (Color.g color)) f)) in
  let* b := getRandomInt (Num.mul (Color.b color) (Num.sub (Num.Fin 1) f))
              (Num.add (Color.b color) (Num.mul (Num.sub (Num.Fin 255) (Color.b color)) f)) in
  ret (Color.new r g b).

End Script.

(** ** The grid *)

Module Node.

(** a node of the grid, as the object literal of line 302 builds it *)
Record t : Type := mk {
  _color : Color.t;
  color : Color.t;
  orgPos : loc;
  currPos : loc
}.

Definition set_currPos (l : loc) (n : t) : t :=
  mk (_color n) (color n) (orgPos n) l.

End Node.

Abbreviation grid_t := (list (option (list (option Node.t)))) (only parsing).

(** the settings object passed to [newGrid]; a missing number reads as
    [NaN] *)
Record GridSettings : Type := {
  gridSize : num;
  posRandomness : num;
  startColor : option Color.t;
  startColorRandomness : num;
  overTimeColorRandomness : num
}.

(** the settings object passed to [drawGrid] *)
Record DrawSettings : Type := {
  baseColor : option Color.t;
  baseColorOpacity : num;
  borderColor : option Color.t
}.

(** the settings object passed to [animateGrid] *)
Record AnimateSettings : Type := {
  mousePos : option loc
}.

(** the argument [false] of the enclosing function *)
Definition debug : bool := false.

Module Polygon.

Record t : Type := mk {
  points : list loc;
  color : Color.t;
  borderColor : option Color.t
}.

End Polygon.

Section Grid.
Context `{Host}.

(** [p.move(v)] on a point of the store *)
Definition move (l : loc) (v : Vector.t) : M loc :=
  let* p := load l in
  alloc (Point.move p v).

(** lines 279-307: the node of column [nodeIndex] of line [lineIndex] *)
Definition newNode (s : GridSettings) (grid : grid_t) (lineIndex nodeIndex : nat)
  : M Node.t :=
  let posRandomness := Vector.new (posRandomness s) (posRandomness s) in
  let* currPos := alloc (Point.new (Num.mul (Num.of_nat lineIndex) (gridSize s))
                                   (Num.mul (Num.of_nat nodeIndex) (gridSize s))) in
  let* currPos := move currPos (Vector.new (Num.Fin (-40)) (Num.Fin (-40))) in
  let* dx := getRandomInt (Num.neg (Vector.x posRandomness)) (Vector.x posRandomness) in
  let* dy := getRandomInt (Num.neg (Vector.y posRandomness)) (Vector.y posRandomness) in
  let* currPos := move currPos (Vector.new dx dy) in
  let* startColor := getRandomColor (startColor s) (startColorRandomness s) in
  let* red :=
    match aget grid (Z.of_nat lineIndex - 1) with
    | Some above =>
        let* n := defined (aget above (Z.of_nat nodeIndex)) in
        ret (Color.r (Node.color n))
    | None => ret (Color.r startColor)
    end in
  let* green :=
    match aget grid (Z.of_nat lineIndex - 1) with
    | Some above =>
        match aget above (Z.of_nat nodeIndex - 1) with
        | Some n => ret (Color.g (Node.color n))
        | None => ret (Color.g startColor)
        end
    | None => ret (Color.g startColor)
    end in
  let* blue :=
    let* line := defined (aget grid (Z.of_nat lineIndex)) in
    match aget line (Z.of_nat nodeIndex - 1) with
    | Some n => ret (Color.b (Node.color n))
    | None => ret (Color.b startColor)
    end in
  let color := Color.new red green blue in
  let* color := getRandomColor (Some color) (Num.or0 (overTimeColorRandomness s)) in
  let* copy := getRandomColor (Some color) (Num.Fin 0) in
  let* p := load currPos in
  let* orgPos := alloc (Point.new (Point.x p) (Point.y p)) in
  ret (Node.mk color copy orgPos currPos).

(** lines 276-308, one turn of the inner loop.  The placeholder [{}] of
    line 277 is left out: line 302 overwrites it, and nothing in between
    reads the element at [lineIndex], [nodeIndex]. *)
Definition newGrid_cell (s : GridSettings) (lineIndex nodeIndex : nat) (grid : grid_t)
  : M grid_t :=
  let* node := newNode s grid lineIndex nodeIndex in
  let* line := defined (aget grid (Z.of_nat lineIndex)) in
  ret (aset grid lineIndex (aset line nodeIndex node)).

(** lines 274-309, one turn of the outer loop *)
Definition newGrid_line (s : GridSettings) (lineIndex : nat) (grid : grid_t)
  : M grid_t :=
  let* line := new_Array (Num.add (parseInt (Num.div (Num.of_Z canvas_height) (gridSize s)))
                                  (Num.Fin 5)) in
  let grid := aset grid lineIndex line in
  for_loop 0 (length line) (newGrid_cell s lineIndex) grid.

(** line 271 *)
Definition newGrid (s : GridSettings) : M grid_t :=
  let* grid := new_Array (Num.add (parseInt (Num.div (Num.of_Z canvas_width) (gridSize s)))
                                  (Num.Fin 5)) in
  for_loop 0 (length grid) (newGrid_line s) grid.

(** [points.forEach(f)] *)
Fixpoint forEach {A} (l : list A) (f : A -> M unit) : M unit :=
  match l with
  | [] => ret tt
  | a :: l' => f a;; forEach l' f
  end.

(** line 154: [new Polygon(points, color, borderColor)] *)
Definition new_Polygon (points : list loc) (color : option Color.t)
    (borderColor : option Color.t) : Polygon.t :=
  Polygon.mk points
    (match color with Some c => c | None => Color.new Num.NaN Num.NaN Num.NaN end)
    borderColor.

(** line 161 *)
Definition fill (this : Polygon.t) : M unit :=
  emit (SetFillStyle (Color.getHexCode (Polygon.color this)));;
  emit BeginPath;;
  let* first := defined (Polygon.points this !! 0) in
  let* p := load first in
  emit (MoveTo (Point.x p) (Point.y p));;
  forEach (Polygon.points this)
    (fun point => let* p := load point in emit (LineTo (Point.x p) (Point.y p)));;
  emit ClosePath;;
  emit Fill;;
  match Polygon.borderColor this with
  | Some c => emit (SetStrokeStyle (Color.getHexCode c));; emit Stroke
  | None => ret tt
  end;;
  if debug then
    emit (SetFont "12px Arial");;
    forEach (Polygon.points this)
      (fun point => let* p := load point in emit (StrokeText (Point.x p) (Point.y p)))
  else ret tt.

(** [grid[lineIndex][nodeIndex]], a [TypeError] when the line is missing *)
Definition node_at (grid : grid_t) (lineIndex nodeIndex : nat) : M (option Node.t) :=
  let* line := defined (aget grid (Z.of_nat lineIndex)) in
  ret (aget line (Z.of_nat nodeIndex)).

(** lines 317-335, the body of the inner loop of [drawGrid] *)
Definition drawGrid_cell (s : DrawSettings) (grid : grid_t) (lineIndex nodeIndex : nat)
    (_ : unit) : M unit :=
  let* node := bind (node_at grid lineIndex nodeIndex) defined in
  let* drawColor := getRandomColor (Some (Node.color node)) (Num.Fin 0) in
  let drawColor :=
    match baseColor s with
    | Some bc =>
        let bco := baseColorOpacity s in
        let c := Color.set_r (Num.div (Num.add (Color.r drawColor) (Num.mul (Color.r bc) bco))
                                      (Num.add (Num.Fin 1) bco)) drawColor in
        let c := Color.set_g (Num.div (Num.add (Color.g c) (Num.mul (Color.g bc) bco))
                                      (Num.add (Num.Fin 1) bco)) c in
        Color.set_b (Num.div (Num.add (Color.b c) (Num.mul (Color.b bc) bco))
                             (Num.add (Num.Fin 1) bco)) c
    | None => drawColor
    end in
  let* n10 := bind (node_at grid (lineIndex + 1) nodeIndex) defined in
  let* n00 := bind (node_at grid lineIndex nodeIndex) defined in
  let* n01 := bind (node_at grid lineIndex (nodeIndex + 1)) defined in
  let* n11 := bind (node_at grid (lineIndex + 1) (nodeIndex + 1)) defined in
  let r := new_Polygon [Node.currPos n10; Node.currPos n00; Node.currPos n01; Node.currPos n11]
                       (Some drawColor) (borderColor s) in
  fill r.

(** line 314 *)
Definition drawGrid (grid : grid_t) (s : DrawSettings) : M unit :=
  for_loop 0 (length grid - 1)
    (fun lineIndex _ =>
       let* line := defined (aget grid (Z.of_nat lineIndex)) in
       for_loop 0 (length line - 1) (drawGrid_cell s grid lineIndex) tt)
    tt.

(** lines 345-355: the pull of the pointer on a node; the node is
    returned with the [currPos] it has afterwards *)
Definition animateNode_pointer (s : AnimateSettings) (node : Node.t) : M Node.t :=
  match mousePos s with
  | Some m =>
      let* org := load (Node.orgPos node) in
      let* mouse := load m in
      let diff := fromPoints org mouse in
      let dist := Vector.getDistance diff in
      let pow := Num.sub (Num.Fin 1) (Num.pow (Num.div dist (Num.Fin 420)) 2) in
      if Num.gt pow (Num.Fin 0) then
        let* l := move (Node.orgPos node)
                    (Vector.multiply
                       (Vector.multiply (Vector.normalized diff)
                                        (Vector.new (Num.Fin 30) (Num.Fin 30)))
                       (Vector.new pow pow)) in
        ret (Node.set_currPos l node)
      else ret node
  | None => ret node
  end.

(** lines 357-358: the smoothing of [currPos], first [x], then [y] *)
Definition animateNode_smooth (node : Node.t) : M Node.t :=
  let* org := load (Node.orgPos node) in
  let* cur := load (Node.currPos node) in
  store (Node.currPos node)
    (Point.set_x (Num.div (Num.add (Point.x org) (Num.mul (Point.x cur) (Num.Fin 50)))
                          (Num.Fin 51)) cur);;
  let* org := load (Node.orgPos node) in
  let* cur := load (Node.currPos node) in
  store (Node.currPos node)
    (Point.set_y (Num.div (Num.add (Point.y org) (Num.mul (Point.y cur) (Num.Fin 50)))
                          (Num.Fin 51)) cur);;
  ret node.

(** lines 343-358, the body of the inner loop of [animateGrid] *)
Definition animateNode (s : AnimateSettings) (node : Node.t) : M Node.t :=
  let* node := animateNode_pointer s node in
  animateNode_smooth node.

Definition animateGrid_cell (s : AnimateSettings) (lineIndex nodeIndex : nat)
    (grid : grid_t) : M grid_t :=
  let* node := bind (node_at grid lineIndex nodeIndex) defined in
  let* node := animateNode s node in
  let* line := defined (aget grid (Z.of_nat lineIndex)) in
  ret (aset grid lineIndex (aset line nodeIndex node)).

(** line 340 *)
Definition animateGrid (grid : grid_t) (s : AnimateSettings) : M grid_t :=
  for_loop 0 (length grid - 1)
    (fun lineIndex grid =>
       let* line := defined (aget grid (Z.of_nat lineIndex)) in
       for_loop 0 (length line - 1) (animateGrid_cell s lineIndex) grid)
    grid.

End Grid.


(** ** Values computed by the random helpers

    [getRandomInt] and [getRandomColor] change nothing but the count of
    calls of [Math.random()]; these are the values they return when that
    count is [k]. *)

Section RandomValues.
Context `{Host}.

Definition getRandomInt_at (k : nat) (min max : num) : num :=
  Num.add (Num.floor (Num.mul (Num.Fin (Math_random k))
                              (Num.add (Num.sub max min) (Num.Fin 1)))) min.

Definition getRandomColor_at (k : nat) (color : option Color.t) (randomness : num)
  : Color.t :=
  let color := match color with
               | Some c => c
               | None => Color.new Num.NaN Num.NaN Num.NaN
               end in
  let randomness := if Num.isNaN randomness then Num.Fin 100 else randomness in
  let f := Num.div randomness (Num.Fin 100) in
  Color.new
    (getRandomInt_at k (Num.mul (Color.r color) (Num.sub (Num.Fin 1) f))
       (Num.add (Color.r color) (Num.mul (Num.sub (Num.Fin 255) (Color.r color)) f)))
    (getRandomInt_at (S k) (Num.mul (Color.g color) (Num.sub (Num.Fin 1) f))
       (Num.add (Color.g color) (Num.mul (Num.sub (Num.Fin 255) (Color.g color)) f)))
    (getRandomInt_at (S (S k)) (Num.mul (Color.b color) (Num.sub (Num.Fin 1) f))
       (Num.add (Color.b color) (Num.mul (Num.sub (Num.Fin 255) (Color.b color)) f))).

End RandomValues.

(** ** Two-digit hexadecimal text *)

(** the digit of a value of the range 0..15 *)
Definition hex_digit (d : Z) : ascii :=
  match String.get (Z.to_nat d) "0123456789abcdef" with
  | Some c => c
  | None => "?"%char
  end.

(** two hexadecimal digits, the first one [0] for a value below 16 *)
Definition two_hex (z : Z) : string :=
  String (hex_digit (z / 16)) (String (hex_digit (z mod 16)) EmptyString).

(** what [getHexCode] appends for one channel (lines 231-232) *)
Definition hex_channel (z : Z) : string :=
  ((if (z <? 16)%Z then "0" else "") ++ hex_of_Z z)%string.

(** ** Views of a grid *)

(** the node at line [i], column [j], if there is one *)
Definition cell (g : grid_t) (i j : nat) : option Node.t :=
  match aget g (Z.of_nat i) with
  | Some line => aget line (Z.of_nat j)
  | None => None
  end.

(** the same with indices that may be negative, as in [grid[i-1][j-1]] *)
Definition zcell (g : grid_t) (i j : Z) : option Node.t :=
  match aget g i with
  | Some line => aget line j
  | None => None
  end.

(** a channel taken from a neighbour if that node exists, else from the
    start color *)
Definition from_neighbour (neighbour : option Node.t) (channel : Color.t -> num)
    (start : Color.t) : num :=
  match neighbour with
  | Some n => channel (Node.color n)
  | None => channel start
  end.

Section GridViews.
Context `{Host}.

(** the color of node [i], [j] before its random perturbation: red from
    the node above (previous line, same column), green from the diagonal
    neighbour, blue from the node to the left (same line, previous column) *)
Definition base_color (g : grid_t) (i j : nat) (start : Color.t) : Color.t :=
  Color.new
    (from_neighbour (zcell g (Z.of_nat i - 1) (Z.of_nat j)) Color.r start)
    (from_neighbour (zcell g (Z.of_nat i - 1) (Z.of_nat j - 1)) Color.g start)
    (from_neighbour (zcell g (Z.of_nat i) (Z.of_nat j - 1)) Color.b start).

(** the number of lines and of nodes per line that [newGrid] asks for *)
Definition grid_lines (s : GridSettings) : num :=
  Num.add (parseInt (Num.div (Num.of_Z canvas_width) (gridSize s))) (Num.Fin 5).
Definition grid_columns (s : GridSettings) : num :=
  Num.add (parseInt (Num.div (Num.of_Z canvas_height) (gridSize s))) (Num.Fin 5).

(** the position given to node [i], [j] when [Math.random()] is at its
    [k]-th call (lines 279-285) *)
Definition node_position (s : GridSettings) (i j k : nat) : Point.t :=
  let posRandomness := Vector.new (posRandomness s) (posRandomness s) in
  Point.move
    (Point.move (Point.new (Num.mul (Num.of_nat i) (gridSize s))
                           (Num.mul (Num.of_nat j) (gridSize s)))
                (Vector.new (Num.Fin (-40)) (Num.Fin (-40))))
    (Vector.new
       (getRandomInt_at k (Num.neg (Vector.x posRandomness)) (Vector.x posRandomness))
       (getRandomInt_at (S k) (Num.neg (Vector.y posRandomness)) (Vector.y posRandomness))).

(** the start color drawn for a node (line 287) *)
Definition start_color_at (s : GridSettings) (k : nat) : Color.t :=
  getRandomColor_at k (startColor s) (startColorRandomness s).

(** node [i], [j] of a grid with [cols] nodes per line that [newGrid]
    builds from a store of [l0] points after [r0] calls of [Math.random()]:
    each node takes four points and eleven random numbers *)
Definition built_node (s : GridSettings) (l0 r0 cols : nat) (g : grid_t) (i j : nat)
  : Node.t :=
  let c := i * cols + j in
  let k := r0 + 11 * c in
  let color := getRandomColor_at (k + 5)
                 (Some (base_color g i j (start_color_at s (k + 2))))
                 (Num.or0 (overTimeColorRandomness s)) in
  Node.mk color (getRandomColor_at (k + 8) (Some color) (Num.Fin 0))
          (l0 + 4 * c + 3) (l0 + 4 * c + 2).

End GridViews.

(** ** The invariant of the loops of [newGrid] *)

Section NewGridInvariant.
Context `{Host}.
Variables (s : GridSettings) (st0 : state) (lines cols : nat).

(** node [i], [j] has been built: it is in the grid, and its two points
    are in the store *)
Definition built (g : grid_t) (h : list Point.t) (i j : nat) : Prop :=
  let c := i * cols + j in
  let p := node_position s i j (randoms st0 + 11 * c) in
  cell g i j = Some (built_node s (length (heap st0)) (randoms st0) cols g i j) /\
  h !! (length (heap st0) + 4 * c + 2) = Some p /\
  h !! (length (heap st0) + 4 * c + 3) = Some p.

(** the nodes built before the loops reach line [i], column [j] *)
Definition before (i j i' j' : nat) : Prop :=
  j' < cols /\ (i' < i \/ (i' = i /\ j' < j)).

Record newGrid_inv (i j : nat) (g : grid_t) (st : state) : Prop := {
  inv_lines : length g = lines;
  inv_line_done : forall i', i' < i ->
    exists line, g !! i' = Some (Some line) /\ length line = cols;
  inv_built : forall i' j', before i j i' j' -> built g (heap st) i' j';
  inv_heap : length (heap st) = length (heap st0) + 4 * (i * cols + j);
  inv_prefix : exists ext, heap st = heap st0 ++ ext;
  inv_randoms : randoms st = randoms st0 + 11 * (i * cols + j);
  inv_ctx : ctx st = ctx st0
}.

(** inside the inner loop the line under construction is in place *)
Definition newGrid_line_inv (i j : nat) (g : grid_t) (st : state) : Prop :=
  newGrid_inv i j g st /\
  exists line, g !! i = Some (Some line) /\ length line = cols.

End NewGridInvariant.

(** ** Well-formed grids *)

(** A grid of [lines] by [cols] nodes over a store [h]: every element is a
    node, the points of the nodes are in the store, no [currPos] is the
    [orgPos] of a node, and no two nodes share their [currPos]. *)
Record grid_wf (lines cols : nat) (g : grid_t) (h : list Point.t) : Prop := {
  wf_lines : length g = lines;
  wf_line : forall i, i < lines ->
    exists line, g !! i = Some (Some line) /\ length line = cols;
  wf_cell : forall i j, i < lines -> j < cols -> is_Some (cell g i j);
  wf_org : forall i j n, cell g i j = Some n -> is_Some (h !! Node.orgPos n);
  wf_cur : forall i j n, cell g i j = Some n -> is_Some (h !! Node.currPos n);
  wf_sep : forall i j n i' j' n',
    cell g i j = Some n -> cell g i' j' = Some n' -> Node.currPos n <> Node.orgPos n';
  wf_cur_inj : forall i j n i' j' n',
    cell g i j = Some n -> cell g i' j' = Some n' ->
    Node.currPos n = Node.currPos n' -> i = i' /\ j = j'
}.

(** every node is where it rests *)
Definition at_rest (g : grid_t) (h : list Point.t) : Prop :=
  forall i j n, cell g i j = Some n ->
    exists p, h !! Node.orgPos n = Some p /\ h !! Node.currPos n = Some p.

(** ** A concrete run

    A canvas of 400 by 200 pixels, a generator that returns 0 at every
    call, and the settings of the script (lines 365-373) with a cell size
    of 80. *)

Definition example_host : Host := {|
  Math_random := fun _ => 0%R;
  Math_random_range := fun _ => conj (Rle_refl 0) Rlt_0_1;
  canvas_width := 400;
  canvas_height := 200;
  exponent_lead := fun _ => 1%Z;
  fraction_toString16 := fun _ => EmptyString
|}.

Definition example_settings : GridSettings := {|
  gridSize := Num.Fin 80;
  posRandomness := Num.Fin 26;
  startColor := Some (@Color.new example_host (Num.Fin 80) (Num.Fin 90) (Num.Fin 250));
  startColorRandomness := Num.Fin 10;
  overTimeColorRandomness := Num.Fin 5
|}.

(** the state of a script that has not yet run *)
Definition initial_state : state := mkState [] 0 [].

(** ** Values computed by [animateGrid]

    What one call of [animateGrid] makes of the point [cur] of a node that
    rests at [org], with the pointer at [mouse]. *)

(** the point of the node after lines 345-355 *)
Definition pointer_value (mouse : option Point.t) (org cur : Point.t) : Point.t :=
  match mouse with
  | Some mouse =>
      let diff := fromPoints org mouse in
      let dist := Vector.getDistance diff in
      let pow := Num.sub (Num.Fin 1) (Num.pow (Num.div dist (Num.Fin 420)) 2) in
      if Num.gt pow (Num.Fin 0) then
        Point.move org
          (Vector.multiply
             (Vector.multiply (Vector.normalized diff)
                              (Vector.new (Num.Fin 30) (Num.Fin 30)))
             (Vector.new pow pow))
      else cur
  | None => cur
  end.

(** the point of the node after lines 357-358 *)
Definition smooth_value (org cur : Point.t) : Point.t :=
  Point.mk
    (Num.div (Num.add (Point.x org) (Num.mul (Point.x cur) (Num.Fin 50))) (Num.Fin 51))
    (Num.div (Num.add (Point.y org) (Num.mul (Point.y cur) (Num.Fin 50))) (Num.Fin 51)).

Definition animate_point (mouse : option Point.t) (org cur : Point.t) : Point.t :=
  smooth_value org (pointer_value mouse org cur).


(** ** The invariant of the loops of [animateGrid] *)

Section AnimateInvariant.
Variables (s : AnimateSettings) (mouse : option Point.t) (lines cols : nat).
Variables (g0 : grid_t) (st0 : state).

(** the pointer of the settings is the point [mouse] of the store *)
Definition pointer_at (h : list Point.t) : Prop :=
  match mousePos s, mouse with
  | Some m, Some p => h !! m = Some p
  | None, None => True
  | _, _ => False
  end.

(** the pointer is not the [currPos] of a node *)
Definition pointer_apart (g : grid_t) : Prop :=
  forall m i j n, mousePos s = Some m -> cell g i j = Some n -> Node.currPos n <> m.

(** the nodes that [animateGrid] updates: all but the last line and the
    last column *)
Definition animated (i j : nat) : Prop := i < lines - 1 /\ j < cols - 1.

(** the nodes updated before the loops reach line [i], column [j] *)
Definition updated (i j i' j' : nat) : Prop :=
  j' < cols - 1 /\ (i' < i \/ (i' = i /\ j' < j)).

(** what has become of the node [n0] that the grid had at [i], [j] when
    the nodes of [U] have been updated *)
Definition node_inv (U : nat -> nat -> Prop) (g : grid_t) (st : state)
    (i j : nat) (n0 : Node.t) : Prop :=
  exists n org cur,
    cell g i j = Some n /\
    Node.orgPos n = Node.orgPos n0 /\
    Node._color n = Node._color n0 /\
    Node.color n = Node.color n0 /\
    heap st0 !! Node.orgPos n0 = Some org /\
    heap st !! Node.orgPos n0 = Some org /\
    heap st0 !! Node.currPos n0 = Some cur /\
    (U i j -> heap st !! Node.currPos n = Some (animate_point mouse org cur)) /\
    (~ U i j -> Node.currPos n = Node.currPos n0 /\
                heap st !! Node.currPos n = Some cur).

Record animate_inv (U : nat -> nat -> Prop) (g : grid_t) (st : state) : Prop := {
  ainv_wf : grid_wf lines cols g (heap st);
  ainv_pointer : pointer_at (heap st);
  ainv_apart : pointer_apart g;
  ainv_randoms : randoms st = randoms st0;
  ainv_ctx : ctx st = ctx st0;
  ainv_nodes : forall i j n0, cell g0 i j = Some n0 -> node_inv U g st i j n0
}.

End AnimateInvariant.


(** ** The pointer influence in real numbers *)

(** the distance [d] between the rest position [(ox, oy)] of a node and
    the pointer [(mx, my)] *)
Definition gap (ox oy mx my : R) : R :=
  R_sqrt.sqrt ((ox - mx) * (ox - mx) + (oy - my) * (oy - my)).

(** the influence [k = 1 - (d/420)^2] *)
Definition influence (d : R) : R := (1 - (d / 420) * (d / 420))%R.


(** ** A small grid

    Two lines of two nodes; [animateGrid] updates the node at line 0,
    column 0 only.  The store holds the rest position and the current
    position of each node, and two points for the pointer: one at (3,4)
    and one at (0,0), the rest position of the first node. *)

Definition at_xy (x y : R) : Point.t := Point.mk (Num.Fin x) (Num.Fin y).

Definition tiny_color : Color.t := Color.mk (Num.Fin 80) (Num.Fin 90) (Num.Fin 250).

Definition tiny_node (org cur : loc) : Node.t := Node.mk tiny_color tiny_color org cur.

Definition tiny_grid : grid_t :=
  [ Some [Some (tiny_node 0 1); Some (tiny_node 2 3)];
    Some [Some (tiny_node 4 5); Some (tiny_node 6 7)] ].

(** the store, with the first node currently at [cur] *)
Definition tiny_heap (cur : Point.t) : list Point.t :=
  [ at_xy 0 0; cur; at_xy 0 80; at_xy 0 80;
    at_xy 80 0; at_xy 80 0; at_xy 80 80; at_xy 80 80;
    at_xy 3 4; at_xy 0 0 ].

Definition tiny_state (cur : Point.t) : state := mkState (tiny_heap cur) 0 [].

Definition pointer (m : loc) : AnimateSettings := {| mousePos := Some m |}.

(** ** Lines

    [Line] (lines 124-145) keeps two points; its methods only read their
    fields, so a line is modelled by the values of its two points. *)

Module Line.

Record t : Type := mk { p1 : Point.t; p2 : Point.t }.




End Line.

(** ** The script that drives the animation (lines 364-415)

    The host calls the script back: once after the timeout of 600 ms, at
    every mouse move over the parent of the canvas once the listener is
    bound, and at every animation frame.  What [Date.now()] returns during
    a callback comes with the event. *)

Module Script.

(** the variables that the callbacks share *)
Record t : Type := mk {
  grid : grid_t;
  mousePos : loc;
  lastMouseMove : num;
  lastRender : num;
  (** whether the listener of line 380 is bound *)
  listening : bool
}.

End Script.

(** what a mouse move reads from the host: the event, the rectangle of the
    canvas on the screen and the displayed size of the canvas *)
Record MouseMove : Type := {
  clientX : num;
  clientY : num;
  rect_left : num;
  rect_top : num;
  clientWidth : num;
  clientHeight : num
}.

Inductive Event : Type :=
| Timeout
| Move (ev : MouseMove) (now : num)
| Frame (now : num).

Section Driver.
Context `{Host}.

(** lines 365-373: the settings of the grid, for a screen that is
    [availWidth] wide *)
Definition grid_settings (availWidth : num) : GridSettings := {|
  posRandomness := Num.Fin 26;
  startColor := Some (Color.new (Num.Fin 80) (Num.Fin 90) (Num.Fin 250));
  startColorRandomness := Num.Fin 10;
  overTimeColorRandomness := Num.Fin 5;
  gridSize := Num.div (Num.Fin 80000)
                (Num.add (Num.div availWidth (Num.Fin 2)) (Num.Fin 900))
|}.

(** lines 400-405: the settings of the rendering *)
Definition draw_settings : DrawSettings := {|
  baseColor := Some (Color.new (Num.Fin 25) (Num.Fin 80) (Num.Fin 250));
  borderColor := Some (Color.new (Num.Fin 18) (Num.Fin 31) (Num.Fin 45));
  baseColorOpacity := Num.Fin (4 / 10)
|}.

(** lines 365-377: the start of the script, at time [now] *)
Definition start (availWidth now : num) : M Script.t :=
  let* grid := newGrid (grid_settings availWidth) in
  let* mousePos := alloc (Point.new (Num.div (Num.of_Z canvas_width) (Num.Fin 2))
                                    (Num.div (Num.of_Z canvas_height) (Num.Fin 2))) in
  ret (Script.mk grid mousePos now (Num.Fin 0) false).

(** lines 380-390: the listener of mouse moves *)
Definition on_mousemove (ev : MouseMove) (now : num) (sc : Script.t) : M Script.t :=
  let* topLeft := alloc (Point.new (rect_left ev) (rect_top ev)) in
  let* browsersMousPos := alloc (Point.new (clientX ev) (clientY ev)) in
  let* b := load browsersMousPos in
  let* t := load topLeft in
  let* canvasMousePos :=
    alloc (Point.new
             (Num.mul (Num.sub (Point.x b) (Point.x t))
                      (Num.div (Num.of_Z canvas_width) (clientWidth ev)))
             (Num.mul (Num.sub (Point.y b) (Point.y t))
                      (Num.div (Num.of_Z canvas_height) (clientHeight ev)))) in
  ret (Script.mk (Script.grid sc) canvasMousePos now (Script.lastRender sc)
                 (Script.listening sc)).

(** lines 394-411: the callback of an animation frame *)
Definition on_frame (now : num) (sc : Script.t) : M Script.t :=
  if Num.gt (Script.lastMouseMove sc) (Script.lastRender sc) then
    let* grid := animateGrid (Script.grid sc) {| mousePos := Some (Script.mousePos sc) |} in
    drawGrid grid draw_settings;;
    ret (Script.mk grid (Script.mousePos sc) (Script.lastMouseMove sc) now
                   (Script.listening sc))
  else ret sc.

(** one callback; a mouse move reaches the script only when the listener
    is bound *)
Definition handle (e : Event) (sc : Script.t) : M Script.t :=
  match e with
  | Timeout =>
      ret (Script.mk (Script.grid sc) (Script.mousePos sc) (Script.lastMouseMove sc)
                     (Script.lastRender sc) true)
  | Move ev now => if Script.listening sc then on_mousemove ev now sc else ret sc
  | Frame now => on_frame now sc
  end.

(** the callbacks of a run, in the order of the events *)
Fixpoint run (events : list Event) (sc : Script.t) : M Script.t :=
  match events with
  | [] => ret sc
  | e :: rest => let* sc' := handle e sc in run rest sc'
  end.

End Driver.

(** ** Scripts in good order *)

(** the grid of the script is well formed over the store, and the pointer
    is a point of the store that no node has as its [currPos] *)
Record script_ok (lines cols : nat) (sc : Script.t) (st : state) : Prop := {
  ok_grid : grid_wf lines cols (Script.grid sc) (heap st);
  ok_pointer : is_Some (heap st !! Script.mousePos sc);
  ok_apart : forall i j n,
    cell (Script.grid sc) i j = Some n -> Node.currPos n <> Script.mousePos sc
}.

(** the node at every place of [g] has, at the same place of [g'], the
    same colors and the same rest position, with the same coordinates *)
Definition nodes_kept (g : grid_t) (st : state) (g' : grid_t) (st' : state) : Prop :=
  forall i j n, cell g i j = Some n ->
    exists n', cell g' i j = Some n' /\
               Node.orgPos n' = Node.orgPos n /\
               Node._color n' = Node._color n /\
               Node.color n' = Node.color n /\
               heap st' !! Node.orgPos n = heap st !! Node.orgPos n.

(** ** What [drawGrid] sends to the canvas *)

Section DrawViews.
Context `{Host}.

(** the commands of [fill] (lines 162-176) for a polygon whose points have
    the values [pts] *)
Definition fill_ops (color : Color.t) (border : option Color.t) (pts : list Point.t)
  : list CanvasOp :=
  [SetFillStyle (Color.getHexCode color); BeginPath] ++
  match pts with
  | p :: _ => [MoveTo (Point.x p) (Point.y p)]
  | [] => []
  end ++
  map (fun p => LineTo (Point.x p) (Point.y p)) pts ++
  [ClosePath; Fill] ++
  match border with
  | Some c => [SetStrokeStyle (Color.getHexCode c); Stroke]
  | None => []
  end.

(** lines 318-324: the color of a cell after the blend with the base
    color of the settings *)
Definition tint (s : DrawSettings) (drawColor : Color.t) : Color.t :=
  match baseColor s with
  | Some bc =>
      let bco := baseColorOpacity s in
      let c := Color.set_r (Num.div (Num.add (Color.r drawColor) (Num.mul (Color.r bc) bco))
                                    (Num.add (Num.Fin 1) bco)) drawColor in
      let c := Color.set_g (Num.div (Num.add (Color.g c) (Num.mul (Color.g bc) bco))
                                    (Num.add (Num.Fin 1) bco)) c in
      Color.set_b (Num.div (Num.add (Color.b c) (Num.mul (Color.b bc) bco))
                           (Num.add (Num.Fin 1) bco)) c
  | None => drawColor
  end.

End DrawViews.

(** the number of [fill()] commands among [ops] *)
Fixpoint count_fills (ops : list CanvasOp) : nat :=
  match ops with
  | [] => 0
  | Fill :: rest => S (count_fills rest)
  | _ :: rest => count_fills rest
  end.

(** a script over the small grid, with the pointer at (3,4), a mouse move
    at time 1 and no rendering yet *)
Definition tiny_script : Script.t := Script.mk tiny_grid 8 (Num.Fin 1) (Num.Fin 0) true.
(** * Properties *)

(** ** Numbers *)

Section NumFacts.
Local Open Scope R_scope.

Lemma Rltb_true (a b : R) : a < b -> Num.Rltb a b = true.
Proof. intros Hab. unfold Num.Rltb. destruct (Rlt_dec a b); [reflexivity | contradiction]. Qed.

Lemma Rltb_false (a b : R) : b <= a -> Num.Rltb a b = false.
Proof. intros Hab. unfold Num.Rltb. destruct (Rlt_dec a b); [lra | reflexivity]. Qed.

Lemma Reqb_true (a b : R) : a = b -> Num.Reqb a b = true.
Proof. intros Hab. unfold Num.Reqb. destruct (Req_dec_T a b); [reflexivity | contradiction]. Qed.

Lemma Reqb_false (a b : R) : a <> b -> Num.Reqb a b = false.
Proof. intros Hab. unfold Num.Reqb. destruct (Req_dec_T a b); [contradiction | reflexivity]. Qed.

Lemma Rltb_IZR (a b : Z) : Num.Rltb (IZR a) (IZR b) = (a <? b)%Z.
Proof.
  destruct (Z.ltb_spec a b) as [Hlt | Hge].
  - apply Rltb_true, IZR_lt, Hlt.
  - apply Rltb_false, IZR_le, Hge.
Qed.

Lemma or0_Fin (x : R) : Num.or0 (Num.Fin x) = Num.Fin x.
Proof.
  unfold Num.or0, Num.truthy, Num.Reqb.
  destruct (Req_dec_T x 0) as [-> | _]; reflexivity.
Qed.

Lemma or0_idem (a : num) : Num.or0 (Num.or0 a) = Num.or0 a.
Proof.
  destruct a as [x | | |]; try reflexivity.
  - now rewrite !or0_Fin.
  - unfold Num.or0 at 2. simpl. apply or0_Fin.
Qed.

Lemma or0_not_NaN (a : num) : Num.or0 a <> Num.NaN.
Proof.
  destruct a as [x | | |]; unfold Num.or0; simpl; try discriminate.
  destruct (negb (Num.Reqb x 0)); discriminate.
Qed.

Lemma or0_finite (a : num) : Num.is_finite a -> Num.or0 a = a.
Proof. intros [x ->]. apply or0_Fin. Qed.

Lemma trunc_IZR (z : Z) : Num.trunc (IZR z) = z.
Proof.
  unfold Num.trunc. destruct (Num.Rltb (IZR z) 0).
  - rewrite ZfloorNZ. lia.
  - apply ZfloorZ.
Qed.

Lemma trunc_nonneg (x : R) (z : Z) :
  0 <= x -> IZR z <= x < IZR z + 1 -> Num.trunc x = z.
Proof.
  intros Hx Hz. unfold Num.trunc. rewrite Rltb_false by exact Hx.
  apply Zfloor_eq, Hz.
Qed.

Lemma plain_decimal_range (x : R) :
  / 1000000 <= x < 10 ^ 21 -> Num.plain_decimal x = true.
Proof.
  intros [Hlo Hhi]. unfold Num.plain_decimal.
  assert (Hpos : 0 < x) by (assert (0 < / 1000000) by lra; lra).
  rewrite (Rabs_right x) by lra.
  rewrite (Rltb_false _ _ Hlo), (Rltb_true _ _ Hhi).
  now rewrite orb_true_r.
Qed.

Lemma plain_decimal_0 : Num.plain_decimal 0 = true.
Proof. unfold Num.plain_decimal. now rewrite Reqb_true. Qed.

Lemma plain_decimal_byte (z : Z) : (0 <= z <= 255)%Z -> Num.plain_decimal (IZR z) = true.
Proof.
  intros Hz. destruct (Z.eq_dec z 0%Z) as [-> | Hnz]; [apply plain_decimal_0 |].
  apply plain_decimal_range. split.
  - assert (1 <= IZR z) by (apply IZR_le; lia). lra.
  - assert (IZR z <= 255) by (apply IZR_le; lia).
    assert (10 ^ 3 <= 10 ^ 21) by (apply Rle_pow; [lra | lia]). lra.
Qed.

End NumFacts.

(** ** Colors *)

Section ColorFacts.
Context `{Host}.


Lemma parseInt_byte (z : Z) : (0 <= z <= 255)%Z -> parseInt (Num.of_Z z) = Num.of_Z z.
Proof.
  intros Hz. unfold parseInt, Num.of_Z.
  now rewrite plain_decimal_byte, trunc_IZR.
Qed.

Lemma limit_of_Z (z : Z) :
  limit (Num.of_Z z) (Num.Fin 0) (Num.Fin 255) = Num.of_Z (Z.max 0 (Z.min z 255)).
Proof.
  unfold limit, Num.gt, Num.of_Z. simpl. rewrite !Rltb_IZR.
  destruct (Z.ltb_spec z 0); [f_equal; f_equal; lia |].
  destruct (Z.ltb_spec 255 z); f_equal; f_equal; lia.
Qed.




Lemma Color_new_bytes (r g b : Z) :
  (0 <= r <= 255)%Z -> (0 <= g <= 255)%Z -> (0 <= b <= 255)%Z ->
  Color.new (Num.of_Z r) (Num.of_Z g) (Num.of_Z b)
  = Color.mk (Num.of_Z r) (Num.of_Z g) (Num.of_Z b).
Proof.
  intros Hr Hg Hb.
  unfold Color.new, Color.set_r, Color.set_g, Color.set_b. simpl.
  unfold Num.of_Z. rewrite !or0_Fin.
  fold (Num.of_Z r) (Num.of_Z g) (Num.of_Z b).
  rewrite !parseInt_byte, !limit_of_Z by assumption.
  repeat f_equal; lia.
Qed.





End ColorFacts.

(** ** Random integers and colors *)

Section RandomFacts.
Context `{Host}.

Lemma getRandomInt_run (min max : num) (s : state) :
  getRandomInt min max s
  = Some (getRandomInt_at (randoms s) min max,
          mkState (heap s) (S (randoms s)) (ctx s)).
Proof. reflexivity. Qed.

Lemma getRandomColor_run (color : option Color.t) (randomness : num) (s : state) :
  getRandomColor color randomness s
  = Some (getRandomColor_at (randoms s) color randomness,
          mkState (heap s) (S (S (S (randoms s)))) (ctx s)).
Proof. reflexivity. Qed.

(** a range of one value: [getRandomInt(x, x)] is [x] *)
Lemma getRandomInt_at_point (k : nat) (x : R) :
  getRandomInt_at k
    (Num.mul (Num.Fin x) (Num.sub (Num.Fin 1) (Num.div (Num.Fin 0) (Num.Fin 100))))
    (Num.add (Num.Fin x)
       (Num.mul (Num.sub (Num.Fin 255) (Num.Fin x)) (Num.div (Num.Fin 0) (Num.Fin 100))))
  = Num.Fin x.
Proof.
  unfold getRandomInt_at, Num.div. rewrite Reqb_false by lra. simpl.
  pose proof (Math_random_range k) as Hu.
  rewrite (Zfloor_eq 0); [f_equal; lra |].
  simpl. lra.
Qed.

(** a finite range gives a finite value *)
Lemma getRandomInt_at_finite (k : nat) (lo hi : R) :
  Num.is_finite (getRandomInt_at k (Num.Fin lo) (Num.Fin hi)).
Proof. unfold getRandomInt_at. simpl. eexists. reflexivity. Qed.




(** the zero-randomness variant of a valid color is the color itself *)
Lemma getRandomColor_at_zero (k : nat) (c : Color.t) :
  Color.valid c -> getRandomColor_at k (Some c) (Num.Fin 0) = c.
Proof.
  destruct c as [cr cg cb].
  intros ([r [Hr Hr']] & [g [Hg Hg']] & [b [Hb Hb']]). simpl in Hr, Hg, Hb. subst cr cg cb.
  unfold getRandomColor_at, Color.r, Color.g, Color.b. simpl Num.isNaN. cbv iota.
  cbn [Color._r Color._g Color._b]. unfold Num.of_Z.
  rewrite !getRandomInt_at_point.
  now apply Color_new_bytes.
Qed.

(** C7: for every color (its channels integers of 0..255, as every stored
    color has them) and whatever [Math.random()] returns,
    [getRandomColor(color, 0)] returns a color with the same [r], [g] and
    [b]; it draws three random numbers and changes nothing else. *)
Theorem getRandomColor_zero_randomness (c : Color.t) (s : state) :
  Color.valid c ->
  getRandomColor (Some c) (Num.Fin 0) s
  = Some (c, mkState (heap s) (S (S (S (randoms s)))) (ctx s)).
Proof.
  intros Hvalid. rewrite getRandomColor_run. do 2 f_equal.
  now apply getRandomColor_at_zero.
Qed.

End RandomFacts.

(** ** Hexadecimal codes *)

Section HexFacts.
Context `{Host}.

Lemma hex_channel_two_hex (z : Z) : (0 <= z <= 255)%Z -> hex_channel z = two_hex z.
Proof.
  intros Hz.
  assert (Hall : forallb (fun n => String.eqb (hex_channel (Z.of_nat n)) (two_hex (Z.of_nat n)))
                   (seq 0 256) = true) by (vm_compute; reflexivity).
  rewrite forallb_forall in Hall.
  specialize (Hall (Z.to_nat z)).
  rewrite Z2Nat.id in Hall by lia.
  apply String.eqb_eq, Hall, in_seq. lia.
Qed.

Lemma toString16_of_Z (z : Z) : toString16 (Num.of_Z z) = hex_of_Z z.
Proof.
  unfold toString16, Num.of_Z. rewrite ZfloorZ. now rewrite Reqb_true.
Qed.

Lemma lt16_of_Z (z : Z) : Num.lt (Num.of_Z z) (Num.Fin 16) = (z <? 16)%Z.
Proof. unfold Num.of_Z. simpl. apply Rltb_IZR. Qed.

Lemma string_app_assoc (a b c : string) : ((a ++ b) ++ c = a ++ (b ++ c))%string.
Proof. induction a as [| ch a IH]; simpl; [reflexivity | now rewrite IH]. Qed.

Lemma getHexCode_bytes (r g b : Z) :
  Color.getHexCode (Color.mk (Num.of_Z r) (Num.of_Z g) (Num.of_Z b))
  = ("#" ++ hex_channel r ++ hex_channel g ++ hex_channel b)%string.
Proof.
  unfold Color.getHexCode, Color.r, Color.g, Color.b. cbn [Color._r Color._g Color._b].
  rewrite !toString16_of_Z, !lt16_of_Z. unfold hex_channel.
  destruct (r <? 16)%Z, (g <? 16)%Z, (b <? 16)%Z;
    rewrite ?string_app_assoc; reflexivity.
Qed.

(** C10: for a color whose channels are integers of 0..255, [getHexCode]
    returns ["#"] followed by two hexadecimal digits per channel (a channel
    below 16 gets a leading [0]): seven characters in all. *)
Theorem getHexCode_seven_chars (c : Color.t) :
  Color.valid c ->
  exists r g b : Z,
    c = Color.mk (Num.of_Z r) (Num.of_Z g) (Num.of_Z b) /\
    Color.getHexCode c = ("#" ++ two_hex r ++ two_hex g ++ two_hex b)%string /\
    String.length (Color.getHexCode c) = 7.
Proof.
  intros ([r [Hr Hr']] & [g [Hg Hg']] & [b [Hb Hb']]).
  exists r, g, b. destruct c as [cr cg cb]. simpl in *. subst cr cg cb.
  split; [reflexivity |].
  rewrite getHexCode_bytes, !hex_channel_two_hex by assumption.
  split; reflexivity.
Qed.

End HexFacts.

(** ** Loops and arrays *)

Lemma bind_run {A B} (m : M A) (k : A -> M B) (s s' : state) (a : A) :
  m s = Some (a, s') -> bind m k s = k a s'.
Proof. intros Hm. unfold bind. now rewrite Hm. Qed.

(** a loop whose body keeps an invariant runs to its end and keeps it *)
Lemma for_loop_invariant {A} (I : nat -> A -> state -> Prop)
    (body : nat -> A -> M A) (count : nat) :
  forall (start : nat) (a : A) (s : state),
    I start a s ->
    (forall k a s, start <= k < start + count -> I k a s ->
       exists a' s', body k a s = Some (a', s') /\ I (S k) a' s') ->
    exists a' s', for_loop start count body a s = Some (a', s') /\ I (start + count) a' s'.
Proof.
  induction count as [| c IH]; intros start a s Hinit Hstep.
  - exists a, s. rewrite Nat.add_0_r. split; [reflexivity | exact Hinit].
  - destruct (Hstep start a s ltac:(lia) Hinit) as (a1 & s1 & Hbody & Hinv).
    destruct (IH (S start) a1 s1 Hinv) as (a2 & s2 & Hrun & Hend).
    + intros k a' s' Hk. apply Hstep. lia.
    + exists a2, s2. split.
      * simpl. rewrite (bind_run _ _ _ _ _ Hbody). exact Hrun.
      * replace (start + S c) with (S start + c) by lia. exact Hend.
Qed.

Section ArrayFacts.
Context {A : Type}.
Implicit Types (a : list (option A)) (v : A).

Lemma aget_nat a (i : nat) :
  aget a (Z.of_nat i) = match a !! i with Some o => o | None => None end.
Proof.
  unfold aget. destruct (Z.ltb_spec (Z.of_nat i) 0); [lia |].
  now rewrite Nat2Z.id.
Qed.

Lemma aget_pred a (i : nat) :
  aget a (Z.of_nat i - 1) = match i with O => None | S i' => aget a (Z.of_nat i') end.
Proof.
  destruct i as [| i'].
  - reflexivity.
  - f_equal. lia.
Qed.

Lemma aget_Some a (i : nat) v : a !! i = Some (Some v) -> aget a (Z.of_nat i) = Some v.
Proof. intros Hi. now rewrite aget_nat, Hi. Qed.

Lemma aset_in_range a (i : nat) v : i < length a -> aset a i v = <[i := Some v]> a.
Proof. intros Hi. unfold aset. now rewrite decide_True. Qed.

Lemma length_aset_in_range a (i : nat) v : i < length a -> length (aset a i v) = length a.
Proof. intros Hi. rewrite aset_in_range by exact Hi. apply length_insert. Qed.

Lemma lookup_aset a (i i' : nat) v :
  i < length a ->
  aset a i v !! i' = if decide (i' = i) then Some (Some v) else a !! i'.
Proof.
  intros Hi. rewrite aset_in_range by exact Hi.
  destruct (decide (i' = i)) as [-> | Hne].
  - now apply list_lookup_insert_eq.
  - apply list_lookup_insert_ne. congruence.
Qed.

Lemma aget_replicate_None (n : nat) (i : Z) : aget (replicate n (@None A)) i = None.
Proof.
  unfold aget. destruct (i <? 0)%Z; [reflexivity |].
  destruct (replicate n None !! Z.to_nat i) as [o |] eqn:Hlk; [| reflexivity].
  apply lookup_replicate in Hlk. tauto.
Qed.

End ArrayFacts.

Section CellFacts.
Implicit Types (g : list (option (list (option Node.t)))).

Lemma cell_lookup g (i j : nat) :
  cell g i j = match g !! i with
               | Some (Some line) => match line !! j with Some o => o | None => None end
               | _ => None
               end.
Proof.
  unfold cell. rewrite aget_nat.
  destruct (g !! i) as [[line |] |]; try reflexivity. apply aget_nat.
Qed.

Lemma cell_Some_lookup g (i j : nat) (n : Node.t) :
  cell g i j = Some n ->
  exists line, g !! i = Some (Some line) /\ line !! j = Some (Some n).
Proof.
  rewrite cell_lookup. destruct (g !! i) as [[line |] |]; try discriminate.
  destruct (line !! j) as [[n' |] |] eqn:Hj; try discriminate.
  intros [= ->]. eauto.
Qed.

Lemma zcell_nat g (i j : nat) : zcell g (Z.of_nat i) (Z.of_nat j) = cell g i j.
Proof. reflexivity. Qed.

(** storing a node at [i], [j] changes that cell and no other *)
Lemma cell_aset g (i j i' j' : nat) (line : list (option Node.t)) (n : Node.t) :
  g !! i = Some (Some line) -> j < length line ->
  cell (aset g i (aset line j n)) i' j'
  = if decide (i' = i /\ j' = j) then Some n else cell g i' j'.
Proof.
  intros Hline Hj.
  assert (Hi : i < length g) by (eapply lookup_lt_Some; exact Hline).
  rewrite !cell_lookup, lookup_aset by exact Hi.
  destruct (decide (i' = i)) as [-> | Hne].
  - rewrite Hline, lookup_aset by exact Hj.
    destruct (decide (j' = j)) as [-> | Hne'].
    + now rewrite decide_True.
    + rewrite decide_False by tauto. reflexivity.
  - rewrite decide_False by tauto. reflexivity.
Qed.

(** a fresh line of holes has no node *)
Lemma cell_aset_holes g (i i' j' cols : nat) :
  i < length g ->
  cell (aset g i (replicate cols None)) i' j'
  = if decide (i' = i) then None else cell g i' j'.
Proof.
  intros Hi. rewrite !cell_lookup, lookup_aset by exact Hi.
  destruct (decide (i' = i)) as [-> | Hne]; [| reflexivity].
  destruct (replicate cols None !! j') as [o |] eqn:Hlk; [| reflexivity].
  apply lookup_replicate in Hlk. tauto.
Qed.

End CellFacts.

(** ** Building a node *)

Section NewNode.
Context `{Host}.
Implicit Types (g : list (option (list (option Node.t)))) (s : GridSettings).

Lemma alloc_run (p : Point.t) (st : state) :
  alloc p st = Some (length (heap st), mkState (heap st ++ [p]) (randoms st) (ctx st)).
Proof. reflexivity. Qed.

Lemma load_run (l : nat) (p : Point.t) (st : state) :
  heap st !! l = Some p -> load l st = Some (p, st).
Proof. intros Hl. unfold load. now rewrite Hl. Qed.

Lemma move_run (l : nat) (p : Point.t) (v : Vector.t) (st : state) :
  heap st !! l = Some p ->
  move l v st
  = Some (length (heap st), mkState (heap st ++ [Point.move p v]) (randoms st) (ctx st)).
Proof. intros Hl. unfold move. now rewrite (bind_run _ _ _ _ _ (load_run _ _ _ Hl)). Qed.

Lemma red_run g (i j : nat) (start : Color.t) (st : state) :
  (forall i', i = S i' -> is_Some (cell g i' j)) ->
  match aget g (Z.of_nat i - 1) with
  | Some above =>
      let* n := defined (aget above (Z.of_nat j)) in
      ret (Color.r (Node.color n))
  | None => ret (Color.r start)
  end st
  = Some (from_neighbour (zcell g (Z.of_nat i - 1) (Z.of_nat j)) Color.r start, st).
Proof.
  intros Habove. unfold zcell.
  destruct (aget g (Z.of_nat i - 1)) as [above |] eqn:Hline; [| reflexivity].
  destruct (aget above (Z.of_nat j)) as [n |] eqn:Hn; [reflexivity |].
  exfalso. rewrite aget_pred in Hline. destruct i as [| i']; [discriminate |].
  destruct (Habove i' eq_refl) as [n Hcell].
  unfold cell in Hcell. rewrite Hline in Hcell. congruence.
Qed.

Lemma green_run g (i j : nat) (start : Color.t) (st : state) :
  match aget g (Z.of_nat i - 1) with
  | Some above =>
      match aget above (Z.of_nat j - 1) with
      | Some n => ret (Color.g (Node.color n))
      | None => ret (Color.g start)
      end
  | None => ret (Color.g start)
  end st
  = Some (from_neighbour (zcell g (Z.of_nat i - 1) (Z.of_nat j - 1)) Color.g start, st).
Proof.
  unfold zcell. destruct (aget g (Z.of_nat i - 1)) as [above |]; [| reflexivity].
  destruct (aget above (Z.of_nat j - 1)); reflexivity.
Qed.

Lemma blue_run g (i j : nat) (line : list (option Node.t)) (start : Color.t) (st : state) :
  g !! i = Some (Some line) ->
  (let* line := defined (aget g (Z.of_nat i)) in
   match aget line (Z.of_nat j - 1) with
   | Some n => ret (Color.b (Node.color n))
   | None => ret (Color.b start)
   end) st
  = Some (from_neighbour (zcell g (Z.of_nat i) (Z.of_nat j - 1)) Color.b start, st).
Proof.
  intros Hline. unfold zcell. rewrite (aget_Some _ _ _ Hline).
  unfold bind. simpl. destruct (aget line (Z.of_nat j - 1)); reflexivity.
Qed.

Lemma Point_new_idem (p : Point.t) (v : Vector.t) :
  let q := Point.move p v in Point.new (Point.x q) (Point.y q) = q.
Proof. unfold Point.move, Point.new. simpl. now rewrite !or0_idem. Qed.

(** the node that the body of the inner loop builds, and what it leaves
    in the store: four new points, the last two being the node's
    [currPos] and [orgPos], both at the node's position *)
Lemma newNode_run s g (i j cols l0 r0 : nat) (line : list (option Node.t)) (st : state) :
  length (heap st) = l0 + 4 * (i * cols + j) ->
  randoms st = r0 + 11 * (i * cols + j) ->
  g !! i = Some (Some line) ->
  (forall i', i = S i' -> is_Some (cell g i' j)) ->
  exists ext,
    newNode s g i j st
    = Some (built_node s l0 r0 cols g i j,
            mkState (heap st ++ ext) (randoms st + 11) (ctx st)) /\
    length ext = 4 /\
    ext !! 2 = Some (node_position s i j (randoms st)) /\
    ext !! 3 = Some (node_position s i j (randoms st)).
Proof.
  intros Hheap Hrand Hline Habove.
  set (p0 := Point.new (Num.mul (Num.of_nat i) (gridSize s))
                       (Num.mul (Num.of_nat j) (gridSize s))).
  set (p1 := Point.move p0 (Vector.new (Num.Fin (-40)) (Num.Fin (-40)))).
  set (p2 := node_position s i j (randoms st)).
  exists [p0; p1; p2; p2]. repeat split; try reflexivity.
  unfold newNode.
  rewrite (bind_run _ _ _ _ _ (alloc_run _ _)). fold p0.
  erewrite bind_run; [| apply (move_run _ p0); apply list_lookup_middle; reflexivity].
  fold p1. cbn [heap randoms ctx].
  rewrite (bind_run _ _ _ _ _ (getRandomInt_run _ _ _)). cbn [heap randoms ctx].
  rewrite (bind_run _ _ _ _ _ (getRandomInt_run _ _ _)). cbn [heap randoms ctx].
  erewrite bind_run; [| apply (move_run _ p1); apply list_lookup_middle; reflexivity].
  fold (node_position s i j (randoms st)). fold p2. cbn [heap randoms ctx].
  rewrite (bind_run _ _ _ _ _ (getRandomColor_run _ _ _)). cbn [heap randoms ctx].
  erewrite bind_run; [| apply red_run; exact Habove].
  erewrite bind_run; [| apply green_run].
  erewrite bind_run; [| eapply blue_run; exact Hline].
  rewrite (bind_run _ _ _ _ _ (getRandomColor_run _ _ _)). cbn [heap randoms ctx].
  rewrite (bind_run _ _ _ _ _ (getRandomColor_run _ _ _)). cbn [heap randoms ctx].
  erewrite bind_run; [| apply (load_run _ p2); apply list_lookup_middle; reflexivity].
  rewrite (bind_run _ _ _ _ _ (alloc_run _ _)). cbn [heap randoms ctx].
  unfold ret. f_equal. f_equal.
  - unfold built_node, start_color_at. rewrite Hrand.
    replace (r0 + 11 * (i * cols + j) + 5)
      with (S (S (S (S (S (r0 + 11 * (i * cols + j))))))) by lia.
    replace (r0 + 11 * (i * cols + j) + 8)
      with (S (S (S (S (S (S (S (S (r0 + 11 * (i * cols + j)))))))))) by lia.
    replace (r0 + 11 * (i * cols + j) + 2)
      with (S (S (r0 + 11 * (i * cols + j)))) by lia.
    f_equal; rewrite !length_app; simpl; lia.
  - f_equal.
    + assert (Hp2 : Point.new (Point.x p2) (Point.y p2) = p2)
        by apply (Point_new_idem p1).
      rewrite Hp2, <- !app_assoc. reflexivity.
    + lia.
Qed.

End NewNode.

(** ** The loops of [newGrid] *)

Section BaseColor.
Context `{Host}.
Implicit Types (g : list (option (list (option Node.t)))).

Lemma aget_negative {A} (a : list (option A)) (i : Z) : (i < 0)%Z -> aget a i = None.
Proof. intros Hi. unfold aget. destruct (Z.ltb_spec i 0); [reflexivity | lia]. Qed.

Lemma zcell_above g (i j : nat) :
  zcell g (Z.of_nat i - 1) (Z.of_nat j)
  = match i with O => None | S i' => cell g i' j end.
Proof. unfold zcell, cell. rewrite aget_pred. destruct i; reflexivity. Qed.

Lemma zcell_left g (i j : nat) :
  zcell g (Z.of_nat i) (Z.of_nat j - 1)
  = match j with O => None | S j' => cell g i j' end.
Proof.
  unfold zcell, cell. destruct (aget g (Z.of_nat i)) as [line |].
  - rewrite aget_pred. destruct j; reflexivity.
  - destruct j; reflexivity.
Qed.

Lemma zcell_diagonal g (i j : nat) :
  zcell g (Z.of_nat i - 1) (Z.of_nat j - 1)
  = match i, j with S i', S j' => cell g i' j' | _, _ => None end.
Proof.
  unfold zcell, cell. rewrite aget_pred. destruct i as [| i']; [reflexivity |].
  destruct (aget g (Z.of_nat i')) as [line |].
  - rewrite aget_pred. destruct j; reflexivity.
  - destruct j; reflexivity.
Qed.

(** the base color of a node depends on the nodes built before it only *)
Lemma base_color_ext g g' (i j : nat) (start : Color.t) :
  (forall i' j', i' < i \/ (i' = i /\ j' < j) -> cell g' i' j' = cell g i' j') ->
  base_color g' i j start = base_color g i j start.
Proof.
  intros Hsame. unfold base_color.
  rewrite !zcell_above, !zcell_left, !zcell_diagonal.
  destruct i as [| i'], j as [| j']; rewrite ?Hsame by lia; reflexivity.
Qed.

Lemma built_node_ext s (l0 r0 cols : nat) g g' (i j : nat) :
  (forall i' j', i' < i \/ (i' = i /\ j' < j) -> cell g' i' j' = cell g i' j') ->
  built_node s l0 r0 cols g' i j = built_node s l0 r0 cols g i j.
Proof. intros Hsame. unfold built_node. now rewrite (base_color_ext g g'). Qed.

End BaseColor.

Section NewGridLoops.
Context `{Host}.
Variables (s : GridSettings) (st0 : state) (lines cols : nat).
Hypothesis Hcols : array_length (grid_columns s) = Some cols.
Implicit Types (g : list (option (list (option Node.t)))).

Lemma built_append g (h ext : list Point.t) (i j : nat) :
  built s st0 cols g h i j -> built s st0 cols g (h ++ ext) i j.
Proof.
  intros (Hcell & Hcur & Horg). repeat split; [exact Hcell | |];
    apply lookup_app_l_Some; assumption.
Qed.

Lemma built_ext g g' (h : list Point.t) (i j : nat) :
  (forall i' j', i' < i \/ (i' = i /\ j' <= j) -> cell g' i' j' = cell g i' j') ->
  built s st0 cols g h i j -> built s st0 cols g' h i j.
Proof.
  intros Hsame (Hcell & Hcur & Horg). repeat split; try assumption.
  rewrite Hsame by lia. rewrite Hcell. f_equal. symmetry.
  apply built_node_ext. intros i' j' Hlt. apply Hsame. lia.
Qed.

(** one turn of the inner loop builds node [i], [j] *)
Lemma newGrid_cell_step (i j : nat) g (st : state) :
  j < cols ->
  newGrid_line_inv s st0 lines cols i j g st ->
  exists g' st',
    newGrid_cell s i j g st = Some (g', st') /\
    newGrid_line_inv s st0 lines cols i (S j) g' st'.
Proof.
  intros Hj [[Hlines Hdone Hbuilt Hheap [ext Hext] Hrand Hctx] (line & Hline & Hlen)].
  assert (Hi : i < length g) by (eapply lookup_lt_Some; exact Hline).
  destruct (newNode_run s g i j cols (length (heap st0)) (randoms st0) line st
              Hheap Hrand Hline) as (ext' & Hrun & Hlen' & Hcur & Horg).
  { intros i' ->. destruct (Hbuilt i' j) as [Hc _]; [split; lia |].
    rewrite Hc. eauto. }
  set (node := built_node s (length (heap st0)) (randoms st0) cols g i j) in *.
  set (g' := aset g i (aset line j node)).
  assert (Hother : forall i' j', ~ (i' = i /\ j' = j) -> cell g' i' j' = cell g i' j').
  { intros i' j' Hne. unfold g'. rewrite (cell_aset g i j i' j' line node Hline) by lia.
    now rewrite decide_False. }
  exists g', (mkState (heap st ++ ext') (randoms st + 11) (ctx st)). split.
  - unfold newGrid_cell. rewrite (bind_run _ _ _ _ _ Hrun).
    rewrite (aget_Some _ _ _ Hline). reflexivity.
  - split; [split |].
    + unfold g'. now rewrite length_aset_in_range.
    + intros i' Hi'. unfold g'. rewrite lookup_aset by exact Hi.
      rewrite decide_False by lia. now apply Hdone.
    + intros i' j' [Hj' Hbefore]. cbn [heap].
      destruct (decide (i' = i /\ j' = j)) as [[-> ->] | Hne].
      * repeat split.
        -- unfold g'. rewrite (cell_aset g i j i j line node Hline) by lia.
           rewrite decide_True by tauto. f_equal. symmetry.
           apply built_node_ext. intros i' j' Hlt. apply Hother. lia.
        -- rewrite lookup_app_r by lia. rewrite <- Hrand.
           replace (length (heap st0) + 4 * (i * cols + j) + 2 - length (heap st))
             with 2 by lia. exact Hcur.
        -- rewrite lookup_app_r by lia. rewrite <- Hrand.
           replace (length (heap st0) + 4 * (i * cols + j) + 3 - length (heap st))
             with 3 by lia. exact Horg.
      * apply built_append. apply (built_ext g).
        -- intros i'' j'' Hlt. apply Hother. lia.
        -- apply Hbuilt. split; [exact Hj' | lia].
    + cbn [heap]. rewrite length_app. lia.
    + exists (ext ++ ext'). cbn [heap]. now rewrite Hext, app_assoc.
    + cbn [randoms]. lia.
    + exact Hctx.
    + exists (aset line j node). split.
      * unfold g'. rewrite lookup_aset by exact Hi. now rewrite decide_True.
      * rewrite length_aset_in_range; lia.
Qed.

(** one turn of the outer loop builds line [i] *)
Lemma newGrid_line_step (i : nat) g (st : state) :
  i < lines ->
  newGrid_inv s st0 lines cols i 0 g st ->
  exists g' st',
    newGrid_line s i g st = Some (g', st') /\
    newGrid_inv s st0 lines cols (S i) 0 g' st'.
Proof.
  intros Hi [Hlines Hdone Hbuilt Hheap Hext Hrand Hctx].
  unfold newGrid_line. fold (grid_columns s). unfold new_Array. rewrite Hcols.
  unfold bind at 1, ret at 1. rewrite length_replicate.
  set (g1 := aset g i (replicate cols None)).
  assert (Hcells : forall i' j', i' <> i -> cell g1 i' j' = cell g i' j').
  { intros i' j' Hne. unfold g1. rewrite cell_aset_holes by lia.
    now rewrite decide_False. }
  destruct (for_loop_invariant (fun j => newGrid_line_inv s st0 lines cols i j)
              (newGrid_cell s i) cols 0 g1 st) as (g' & st' & Hrun & [Hinv Hl]).
  - split; [split |]; try assumption.
    + unfold g1. rewrite length_aset_in_range; lia.
    + intros i' Hi'. unfold g1. rewrite lookup_aset by lia.
      rewrite decide_False by lia. now apply Hdone.
    + intros i' j' [Hj' Hbefore]. apply (built_ext g).
      * intros i'' j'' Hlt. apply Hcells. lia.
      * apply Hbuilt. split; [exact Hj' | lia].
    + exists (replicate cols None). split.
      * unfold g1. rewrite lookup_aset by lia. now rewrite decide_True.
      * apply length_replicate.
  - intros j g2 st2 Hj Hinv. apply newGrid_cell_step; [lia | exact Hinv].
  - exists g', st'. split; [exact Hrun |].
    destruct Hinv as [Hlines' Hdone' Hbuilt' Hheap' Hext' Hrand' Hctx'].
    split; try assumption.
    + intros i' Hi'. destruct (decide (i' = i)) as [-> | Hne]; [exact Hl |].
      apply Hdone'. lia.
    + intros i' j' [Hj' Hbefore]. apply Hbuilt'. split; [exact Hj' | lia].
    + rewrite Hheap'. simpl. lia.
    + rewrite Hrand'. simpl. lia.
Qed.

End NewGridLoops.

(** ** The grid that [newGrid] returns *)

Section NewGrid.
Context `{Host}.
Variables (s : GridSettings) (st0 : state) (lines cols : nat).
Hypothesis Hlines : array_length (grid_lines s) = Some lines.
Hypothesis Hcols : array_length (grid_columns s) = Some cols.

(** [newGrid] returns, and the loop invariant holds at the end *)
Lemma newGrid_runs :
  exists g st',
    newGrid s st0 = Some (g, st') /\ newGrid_inv s st0 lines cols lines 0 g st'.
Proof.
  unfold newGrid. fold (grid_lines s). unfold new_Array. rewrite Hlines.
  unfold bind at 1, ret at 1. rewrite length_replicate.
  apply (for_loop_invariant (fun i => newGrid_inv s st0 lines cols i 0)).
  - split.
    + apply length_replicate.
    + intros i' Hi'. lia.
    + intros i' j' [_ Hbefore]. lia.
    + lia.
    + exists []. now rewrite app_nil_r.
    + lia.
    + reflexivity.
  - intros i g st Hi Hinv. apply (newGrid_line_step s st0 lines cols Hcols); [lia | exact Hinv].
Qed.

Lemma cell_in_grid (g : list (option (list (option Node.t)))) (i j : nat) (n : Node.t) :
  length g = lines ->
  (forall i', i' < lines -> exists line, g !! i' = Some (Some line) /\ length line = cols) ->
  cell g i j = Some n -> i < lines /\ j < cols.
Proof.
  intros Hlen Hshape Hcell.
  destruct (cell_Some_lookup _ _ _ _ Hcell) as (line & Hline & Hn).
  assert (Hi : i < lines) by (rewrite <- Hlen; eapply lookup_lt_Some; exact Hline).
  split; [exact Hi |].
  destruct (Hshape i Hi) as (line' & Hline' & Hlen').
  rewrite Hline in Hline'. injection Hline' as <-.
  rewrite <- Hlen'. eapply lookup_lt_Some. exact Hn.
Qed.

Lemma node_index_inj (i j i' j' : nat) :
  j < cols -> j' < cols -> i * cols + j = i' * cols + j' -> i = i' /\ j = j'.
Proof.
  intros Hj Hj' Heq.
  assert (Hi : i = i').
  { destruct (Nat.lt_trichotomy i i') as [Hlt | [Heq' | Hgt]]; [| exact Heq' |]; exfalso.
    - assert ((i + 1) * cols <= i' * cols) by (apply Nat.mul_le_mono_r; lia). lia.
    - assert ((i' + 1) * cols <= i * cols) by (apply Nat.mul_le_mono_r; lia). lia. }
  subst i'. split; [reflexivity | lia].
Qed.

(** the grid is well formed and every node is at rest *)
Lemma newGrid_inv_wf (g : list (option (list (option Node.t)))) (st : state) :
  newGrid_inv s st0 lines cols lines 0 g st ->
  grid_wf lines cols g (heap st) /\ at_rest g (heap st).
Proof.
  intros [Hlen Hdone Hbuilt Hheap Hext Hrand Hctx].
  assert (Hnode : forall i j n, cell g i j = Some n ->
            i < lines /\ j < cols /\ built s st0 cols g (heap st) i j /\
            n = built_node s (length (heap st0)) (randoms st0) cols g i j).
  { intros i j n Hcell.
    destruct (cell_in_grid g i j n Hlen Hdone Hcell) as [Hi Hj].
    assert (Hb : built s st0 cols g (heap st) i j) by (apply Hbuilt; split; lia).
    repeat split; try assumption; try apply Hb.
    destruct Hb as [Hc _]. congruence. }
  split; [split |]; try assumption.
  - intros i j Hi Hj. destruct (Hbuilt i j) as [Hc _]; [split; lia |]. rewrite Hc. eauto.
  - intros i j n Hcell. destruct (Hnode i j n Hcell) as (_ & _ & (_ & _ & Horg) & ->).
    simpl. eauto.
  - intros i j n Hcell. destruct (Hnode i j n Hcell) as (_ & _ & (_ & Hcur & _) & ->).
    simpl. eauto.
  - intros i j n i' j' n' Hcell Hcell'.
    destruct (Hnode i j n Hcell) as (_ & _ & _ & ->).
    destruct (Hnode i' j' n' Hcell') as (_ & _ & _ & ->). simpl. lia.
  - intros i j n i' j' n' Hcell Hcell'.
    destruct (Hnode i j n Hcell) as (_ & Hj & _ & ->).
    destruct (Hnode i' j' n' Hcell') as (_ & Hj' & _ & ->). simpl. intros Heq.
    apply node_index_inj; lia.
  - intros i j n Hcell. destruct (Hnode i j n Hcell) as (_ & _ & (_ & Hcur & Horg) & ->).
    simpl. eauto.
Qed.

End NewGrid.

(** ** Grid construction: dimensions, colors, positions *)

Section NewGridResults.
Context `{Host}.
Implicit Types (s : GridSettings) (st : state).
Local Open Scope R_scope.

(** the length of [new Array(parseInt(extent / gridSize, 10) + 5)] *)
Lemma array_length_quotient (extent : Z) (gs : R) :
  0 < gs -> (0 <= extent)%Z ->
  extent = 0%Z \/ / 1000000 <= IZR extent / gs ->
  IZR extent / gs < 2 ^ 32 - 5 ->
  array_length (Num.add (parseInt (Num.div (Num.of_Z extent) (Num.Fin gs))) (Num.Fin 5))
  = Some (Z.to_nat (Zfloor (IZR extent / gs) + 5)).
Proof.
  intros Hgs Hext Hsmall Hbig.
  assert (Hq : 0 <= IZR extent / gs).
  { apply Rmult_le_pos; [apply IZR_le; lia | left; now apply Rinv_0_lt_compat]. }
  unfold Num.of_Z, Num.div. rewrite Reqb_false by lra.
  assert (Hplain : Num.plain_decimal (IZR extent / gs) = true).
  { destruct Hsmall as [-> | Hsmall].
    - replace (0 / gs) with 0 by (unfold Rdiv; ring). apply plain_decimal_0.
    - apply plain_decimal_range. split; [exact Hsmall |].
      assert (2 ^ 32 <= 10 ^ 10) by (simpl; lra).
      assert (10 ^ 10 <= 10 ^ 21) by (apply Rle_pow; [lra | lia]).
      lra. }
  unfold parseInt. rewrite Hplain.
  unfold Num.trunc. rewrite Rltb_false by exact Hq.
  simpl Num.add. unfold Num.of_Z. simpl Num.add.
  pose proof (Zfloor_bound (IZR extent / gs)) as [Hlo Hhi].
  assert (Hz : (0 <= Zfloor (IZR extent / gs))%Z) by (apply Zfloor_lub; exact Hq).
  unfold array_length.
  replace (IZR (Zfloor (IZR extent / gs)) + 5) with (IZR (Zfloor (IZR extent / gs) + 5))
    by (rewrite plus_IZR; reflexivity).
  rewrite ZfloorZ, Reqb_true by reflexivity.
  rewrite Rltb_false by (apply IZR_le; lia).
  rewrite Rltb_true by (rewrite plus_IZR; lra).
  reflexivity.
Qed.

(** the result of [newGrid], with all that the loops establish *)
Lemma newGrid_result s st (lines cols : nat) :
  array_length (grid_lines s) = Some lines ->
  array_length (grid_columns s) = Some cols ->
  exists g st',
    newGrid s st = Some (g, st') /\
    newGrid_inv s st lines cols lines 0 g st' /\
    grid_wf lines cols g (heap st') /\
    at_rest g (heap st').
Proof.
  intros Hlines Hcols.
  destruct (newGrid_runs s st lines cols Hlines Hcols) as (g & st' & Hrun & Hinv).
  exists g, st'. split; [exact Hrun |]. split; [exact Hinv |].
  now apply (newGrid_inv_wf s st).
Qed.


(** C8: in the grid that [newGrid] returns every position holds a node,
    and the point at the node's [orgPos] has the same [x] and [y] as the
    point at its [currPos]. *)
Theorem newGrid_nodes_at_rest s st (lines cols : nat) :
  array_length (grid_lines s) = Some lines ->
  array_length (grid_columns s) = Some cols ->
  exists g st',
    newGrid s st = Some (g, st') /\
    (forall i j, (i < lines)%nat -> (j < cols)%nat -> is_Some (cell g i j)) /\
    forall i j n, cell g i j = Some n ->
      exists p, heap st' !! Node.orgPos n = Some p /\
                heap st' !! Node.currPos n = Some p.
Proof.
  intros Hlines Hcols.
  destruct (newGrid_result s st lines cols Hlines Hcols) as (g & st' & Hrun & _ & Hwf & Hrest).
  exists g, st'. split; [exact Hrun |]. split; [apply Hwf | exact Hrest].
Qed.



End NewGridResults.

(** ** Updating a node *)

Section AnimateNode.
Implicit Types (s : AnimateSettings) (node : Node.t) (st : state).

Lemma store_run (l : nat) (p q : Point.t) st :
  heap st !! l = Some q ->
  store l p st = Some (tt, mkState (<[l := p]> (heap st)) (randoms st) (ctx st)).
Proof. intros Hl. unfold store. now rewrite Hl. Qed.

Lemma set_currPos_same node : Node.set_currPos (Node.currPos node) node = node.
Proof. now destruct node. Qed.

(** the pull of the pointer: either the node keeps its point, or it gets a
    new one at the end of the store *)
Lemma animateNode_pointer_run s (mouse : option Point.t) node (org cur : Point.t) st :
  pointer_at s mouse (heap st) ->
  heap st !! Node.orgPos node = Some org ->
  heap st !! Node.currPos node = Some cur ->
  exists l h',
    animateNode_pointer s node st
    = Some (Node.set_currPos l node, mkState h' (randoms st) (ctx st)) /\
    h' !! l = Some (pointer_value mouse org cur) /\
    ((l = Node.currPos node /\ h' = heap st) \/
     (l = length (heap st) /\ h' = heap st ++ [pointer_value mouse org cur])).
Proof.
  intros Hptr Horg Hcur. unfold animateNode_pointer, pointer_at in *.
  assert (Hkeep : forall p, p = cur ->
            exists l h',
              ret node st = Some (Node.set_currPos l node, mkState h' (randoms st) (ctx st)) /\
              h' !! l = Some p /\
              ((l = Node.currPos node /\ h' = heap st) \/
               (l = length (heap st) /\ h' = heap st ++ [p]))).
  { intros p ->. exists (Node.currPos node), (heap st).
    rewrite set_currPos_same. destruct st. repeat split; auto. }
  destruct (mousePos s) as [m |], mouse as [mp |]; try contradiction.
  - rewrite (bind_run _ _ _ _ _ (load_run _ _ _ Horg)).
    rewrite (bind_run _ _ _ _ _ (load_run _ _ _ Hptr)).
    unfold pointer_value.
    destruct (Num.gt _ _) eqn:Hpow.
    + rewrite (bind_run _ _ _ _ _ (move_run _ _ _ _ Horg)).
      eexists _, _. split; [reflexivity |]. split.
      * now apply list_lookup_middle.
      * right. split; reflexivity.
    + now apply Hkeep.
  - now apply Hkeep.
Qed.

(** the smoothing rewrites the point of the node and nothing else *)
Lemma animateNode_smooth_run node (org cur : Point.t) st :
  heap st !! Node.orgPos node = Some org ->
  heap st !! Node.currPos node = Some cur ->
  Node.orgPos node <> Node.currPos node ->
  exists h',
    animateNode_smooth node st = Some (node, mkState h' (randoms st) (ctx st)) /\
    h' !! Node.currPos node = Some (smooth_value org cur) /\
    length h' = length (heap st) /\
    forall l, l <> Node.currPos node -> h' !! l = heap st !! l.
Proof.
  intros Horg Hcur Hsep. unfold animateNode_smooth.
  assert (Hlen : Node.currPos node < length (heap st))
    by (eapply lookup_lt_Some; exact Hcur).
  rewrite (bind_run _ _ _ _ _ (load_run _ _ _ Horg)).
  rewrite (bind_run _ _ _ _ _ (load_run _ _ _ Hcur)).
  rewrite (bind_run _ _ _ _ _ (store_run _ _ _ _ Hcur)).
  set (p1 := Point.set_x _ cur).
  set (st1 := mkState (<[Node.currPos node := p1]> (heap st)) (randoms st) (ctx st)).
  assert (Horg1 : heap st1 !! Node.orgPos node = Some org).
  { simpl. rewrite list_lookup_insert_ne by congruence. exact Horg. }
  assert (Hcur1 : heap st1 !! Node.currPos node = Some p1).
  { simpl. now apply list_lookup_insert_eq. }
  rewrite (bind_run _ _ _ _ _ (load_run _ _ _ Horg1)).
  rewrite (bind_run _ _ _ _ _ (load_run _ _ _ Hcur1)).
  rewrite (bind_run _ _ _ _ _ (store_run _ _ _ _ Hcur1)).
  eexists. split; [reflexivity |]. cbn [heap st1]. repeat split.
  - rewrite list_lookup_insert_eq by (rewrite length_insert; exact Hlen). reflexivity.
  - now rewrite !length_insert.
  - intros l Hl. rewrite !list_lookup_insert_ne by congruence. reflexivity.
Qed.

(** one node: its point becomes [animate_point], the other points of the
    store stay *)
Lemma animateNode_run s (mouse : option Point.t) node (org cur : Point.t) st :
  pointer_at s mouse (heap st) ->
  heap st !! Node.orgPos node = Some org ->
  heap st !! Node.currPos node = Some cur ->
  Node.orgPos node <> Node.currPos node ->
  exists l h',
    animateNode s node st
    = Some (Node.set_currPos l node, mkState h' (randoms st) (ctx st)) /\
    h' !! l = Some (animate_point mouse org cur) /\
    (l = Node.currPos node \/ l = length (heap st)) /\
    length (heap st) <= length h' /\
    forall l', l' <> l -> l' < length (heap st) -> h' !! l' = heap st !! l'.
Proof.
  intros Hptr Horg Hcur Hsep. unfold animateNode.
  assert (Horg_lt : Node.orgPos node < length (heap st))
    by (eapply lookup_lt_Some; exact Horg).
  destruct (animateNode_pointer_run s mouse node org cur st Hptr Horg Hcur)
    as (l & h1 & Hrun & Hl & Hcase).
  rewrite (bind_run _ _ _ _ _ Hrun).
  destruct (animateNode_smooth_run (Node.set_currPos l node) org
              (pointer_value mouse org cur) (mkState h1 (randoms st) (ctx st)))
    as (h' & Hrun' & Hl' & Hlen & Hframe).
  - cbn [heap Node.orgPos Node.set_currPos].
    destruct Hcase as [[_ ->] | [_ ->]]; [exact Horg |].
    now apply lookup_app_l_Some.
  - exact Hl.
  - cbn [Node.orgPos Node.currPos Node.set_currPos].
    destruct Hcase as [[-> _] | [-> _]]; [exact Hsep | lia].
  - exists l, h'. cbn [heap randoms ctx Node.currPos Node.set_currPos] in *.
    split; [exact Hrun' |]. split; [exact Hl' |].
    split; [destruct Hcase as [[-> _] | [-> _]]; auto |].
    split.
    + rewrite Hlen. destruct Hcase as [[_ ->] | [_ ->]]; [lia |].
      rewrite length_app. lia.
    + intros l' Hne Hlt. rewrite (Hframe l' Hne).
      destruct Hcase as [[_ ->] | [_ ->]]; [reflexivity |].
      now apply lookup_app_l.
Qed.

End AnimateNode.

(** ** The loops of [animateGrid] *)

Section AnimateLoops.
Variables (s : AnimateSettings) (mouse : option Point.t) (lines cols : nat).
Variables (g0 : list (option (list (option Node.t)))) (st0 : state).
Hypothesis Hwf0 : grid_wf lines cols g0 (heap st0).
Implicit Types (g : list (option (list (option Node.t)))) (st : state).
Implicit Types (U : nat -> nat -> Prop).

Local Abbreviation inv := (animate_inv s mouse lines cols g0 st0).

Lemma animate_inv_iff U U' g st :
  (forall i j, U i j <-> U' i j) -> inv U g st -> inv U' g st.
Proof.
  intros Hiff [Hwf Hptr Hapart Hrand Hctx Hnodes]. split; try assumption.
  intros i j n0 Hcell.
  destruct (Hnodes i j n0 Hcell)
    as (n & org & cur & Hc & Ho & Hc1 & Hc2 & Horg0 & Horg & Hcur0 & Hyes & Hno).
  exists n, org, cur. split_and!; try assumption.
  - intros HU. apply Hyes, Hiff, HU.
  - intros HU. apply Hno. intros HU'. apply HU, Hiff, HU'.
Qed.

Lemma node_at_run g (i j : nat) (n : Node.t) st :
  cell g i j = Some n -> bind (node_at g i j) defined st = Some (n, st).
Proof.
  intros Hcell. destruct (cell_Some_lookup _ _ _ _ Hcell) as (line & Hline & Hn).
  unfold node_at. rewrite (aget_Some _ _ _ Hline).
  unfold bind, ret, defined. simpl. now rewrite (aget_Some _ _ _ Hn).
Qed.

(** one turn of the inner loop updates node [i], [j] and no other *)
Lemma animateGrid_cell_step U (i j : nat) g st :
  i < lines -> j < cols -> ~ U i j ->
  inv U g st ->
  exists g' st',
    animateGrid_cell s i j g st = Some (g', st') /\
    inv (fun i' j' => U i' j' \/ (i' = i /\ j' = j)) g' st'.
Proof.
  intros Hi Hj HnU [Hwf Hptr Hapart Hrand Hctx Hnodes].
  destruct (wf_cell _ _ _ _ Hwf0 i j Hi Hj) as [n0 Hcell0].
  destruct (Hnodes i j n0 Hcell0)
    as (n & org & cur & Hcell & Ho & Hc1 & Hc2 & Horg0 & Horg & Hcur0 & _ & Hno).
  destruct (Hno HnU) as [Hsame Hcur]. clear Hno.
  destruct (cell_Some_lookup _ _ _ _ Hcell) as (line & Hline & Hn).
  assert (Hi' : i < length g) by (eapply lookup_lt_Some; exact Hline).
  assert (Hj' : j < length line) by (eapply lookup_lt_Some; exact Hn).
  assert (Horg' : heap st !! Node.orgPos n = Some org) by (rewrite Ho; exact Horg).
  destruct (animateNode_run s mouse n org cur st Hptr Horg' Hcur)
    as (l & h' & Hrun & Hl & Hcase & Hlen & Hframe).
  { intros Heq. eapply (wf_sep _ _ _ _ Hwf); [exact Hcell | exact Hcell |]. congruence. }
  set (n' := Node.set_currPos l n) in *.
  set (g' := aset g i (aset line j n')).
  assert (Hcell' : forall i' j',
            cell g' i' j' = if decide (i' = i /\ j' = j) then Some n' else cell g i' j').
  { intros i' j'. apply cell_aset; assumption. }
  assert (Horgs : forall i' j' n2, cell g i' j' = Some n2 ->
            Node.orgPos n2 <> l /\ Node.orgPos n2 < length (heap st)).
  { intros i' j' n2 Hc. 
    assert (Hlt : Node.orgPos n2 < length (heap st))
      by (apply lookup_lt_is_Some; eapply (wf_org _ _ _ _ Hwf); exact Hc).
    split; [| exact Hlt].
    destruct Hcase as [-> | ->]; [| lia].
    intros Heq. eapply (wf_sep _ _ _ _ Hwf); [exact Hcell | exact Hc |]. congruence. }
  assert (Hcurs : forall i' j' n2, cell g i' j' = Some n2 -> ~ (i' = i /\ j' = j) ->
            Node.currPos n2 <> l /\ Node.currPos n2 < length (heap st)).
  { intros i' j' n2 Hc Hne.
    assert (Hlt : Node.currPos n2 < length (heap st))
      by (apply lookup_lt_is_Some; eapply (wf_cur _ _ _ _ Hwf); exact Hc).
    split; [| exact Hlt].
    destruct Hcase as [-> | ->]; [| lia].
    intros Heq. apply Hne. eapply (wf_cur_inj _ _ _ _ Hwf); eassumption. }
  assert (Hm : forall m, mousePos s = Some m -> m <> l /\ m < length (heap st)).
  { intros m Hms. unfold pointer_at in Hptr. rewrite Hms in Hptr.
    destruct mouse as [mp |]; [| contradiction].
    assert (Hlt : m < length (heap st)) by (eapply lookup_lt_Some; exact Hptr).
    split; [| exact Hlt].
    destruct Hcase as [-> | ->]; [| lia].
    intros Heq. eapply Hapart; [exact Hms | exact Hcell |]. congruence. }
  exists g', (mkState h' (randoms st) (ctx st)). split.
  { unfold animateGrid_cell. rewrite (bind_run _ _ _ _ _ (node_at_run _ _ _ _ _ Hcell)).
    rewrite (bind_run _ _ _ _ _ Hrun). rewrite (aget_Some _ _ _ Hline). reflexivity. }
  split; cbn [heap randoms ctx]; try assumption.
  - (* well-formedness *)
    destruct Hwf as [Hwlen Hwline Hwcell Hworg Hwcur Hwsep Hwinj]. split.
    + unfold g'. now rewrite length_aset_in_range.
    + intros i' Hi''. unfold g'. rewrite lookup_aset by exact Hi'.
      destruct (decide (i' = i)) as [-> | Hne]; [| now apply Hwline].
      exists (aset line j n'). split; [reflexivity |].
      rewrite length_aset_in_range by exact Hj'.
      destruct (Hwline i Hi) as (line' & Hline' & Hlen'). congruence.
    + intros i' j' Hi'' Hj''. rewrite Hcell'.
      destruct (decide (i' = i /\ j' = j)); [eauto | now apply Hwcell].
    + intros i' j' n2. rewrite Hcell'.
      destruct (decide (i' = i /\ j' = j)) as [_ | Hne]; intros Hc.
      * injection Hc as <-. cbn [n' Node.orgPos Node.set_currPos].
        destruct (Horgs i j n Hcell) as [Hne' Hlt]. rewrite Hframe by assumption.
        eauto.
      * destruct (Horgs i' j' n2 Hc) as [Hne' Hlt]. rewrite Hframe by assumption.
        now apply (Hworg i' j').
    + intros i' j' n2. rewrite Hcell'.
      destruct (decide (i' = i /\ j' = j)) as [_ | Hne]; intros Hc.
      * injection Hc as <-. cbn [n' Node.currPos Node.set_currPos]. eauto.
      * destruct (Hcurs i' j' n2 Hc Hne) as [Hne' Hlt]. rewrite Hframe by assumption.
        now apply (Hwcur i' j').
    + intros i1 j1 n1 i2 j2 n2. rewrite !Hcell'.
      destruct (decide (i1 = i /\ j1 = j)) as [_ | Hne1];
        destruct (decide (i2 = i /\ j2 = j)) as [_ | Hne2]; intros Hc1' Hc2'.
      * injection Hc1' as <-. injection Hc2' as <-.
        cbn [n' Node.orgPos Node.currPos Node.set_currPos].
        destruct (Horgs i j n Hcell) as [Hne' _]. congruence.
      * injection Hc1' as <-. cbn [n' Node.currPos Node.set_currPos].
        destruct (Horgs i2 j2 n2 Hc2') as [Hne' _]. congruence.
      * injection Hc2' as <-. cbn [n' Node.orgPos Node.set_currPos].
        now apply (Hwsep i1 j1 n1 i j n).
      * now apply (Hwsep i1 j1 n1 i2 j2 n2).
    + intros i1 j1 n1 i2 j2 n2. rewrite !Hcell'.
      destruct (decide (i1 = i /\ j1 = j)) as [[-> ->] | Hne1];
        destruct (decide (i2 = i /\ j2 = j)) as [[-> ->] | Hne2]; intros Hc1' Hc2' Heq.
      * split; reflexivity.
      * injection Hc1' as <-. cbn [n' Node.currPos Node.set_currPos] in Heq.
        destruct (Hcurs i2 j2 n2 Hc2' Hne2) as [Hne' _]. congruence.
      * injection Hc2' as <-. cbn [n' Node.currPos Node.set_currPos] in Heq.
        destruct (Hcurs i1 j1 n1 Hc1' Hne1) as [Hne' _]. congruence.
      * now apply (Hwinj i1 j1 n1 i2 j2 n2).
  - (* the pointer *)
    unfold pointer_at in *. destruct (mousePos s) as [m |] eqn:Hms; [| exact Hptr].
    destruct mouse as [mp |]; [| contradiction].
    destruct (Hm m eq_refl) as [Hne Hlt]. now rewrite Hframe.
  - intros m i' j' n2 Hms. rewrite Hcell'.
    destruct (decide (i' = i /\ j' = j)) as [_ | Hne]; intros Hc.
    + injection Hc as <-. cbn [n' Node.currPos Node.set_currPos].
      destruct (Hm m Hms) as [Hne' _]. congruence.
    + now apply (Hapart m i' j').
  - (* the nodes *)
    intros i' j' n0' Hc0.
    destruct (Hnodes i' j' n0' Hc0)
      as (n2 & org2 & cur2 & Hcn2 & Ho2 & Hca & Hcb & Horg02 & Horg2 & Hcur02 & Hyes & Hno).
    destruct (decide (i' = i /\ j' = j)) as [[-> ->] | Hne].
    + assert (n0' = n0) by congruence. subst n0'.
      assert (n2 = n) by congruence. subst n2.
      assert (org2 = org) by congruence. subst org2.
      assert (cur2 = cur) by congruence. subst cur2.
      exists n', org, cur. rewrite Hcell', decide_True by tauto.
      cbn [n' Node.orgPos Node.currPos Node._color Node.color Node.set_currPos].
      split_and!; try assumption; try reflexivity.
      * destruct (Horgs i j n Hcell) as [Hne' Hlt].
        rewrite Hframe by congruence. exact Horg.
      * intros _. exact Hl.
      * intros HU. exfalso. apply HU. right. tauto.
    + exists n2, org2, cur2. rewrite Hcell', decide_False by exact Hne.
      destruct (Horgs i' j' n2 Hcn2) as [Hne1 Hlt1].
      destruct (Hcurs i' j' n2 Hcn2 Hne) as [Hne2 Hlt2].
      split_and!; try assumption.
      * rewrite Hframe by congruence. exact Horg2.
      * intros [HU | Heq]; [| tauto]. rewrite Hframe by assumption. now apply Hyes.
      * intros HU. rewrite Hframe by assumption. apply Hno. tauto.
Qed.

(** one turn of the outer loop updates line [i] up to its last node *)
Lemma animateGrid_line_step (i : nat) g st :
  i < lines - 1 ->
  inv (updated cols i 0) g st ->
  exists g' st',
    (let* line := defined (aget g (Z.of_nat i)) in
     for_loop 0 (length line - 1) (animateGrid_cell s i) g) st = Some (g', st') /\
    inv (updated cols (S i) 0) g' st'.
Proof.
  intros Hi Hinv.
  destruct (wf_line _ _ _ _ (ainv_wf _ _ _ _ _ _ _ _ _ Hinv) i ltac:(lia))
    as (line & Hline & Hlen).
  rewrite (aget_Some _ _ _ Hline). unfold defined, bind at 1, ret at 1. rewrite Hlen.
  destruct (for_loop_invariant (fun j => inv (updated cols i j))
              (animateGrid_cell s i) (cols - 1) 0 g st Hinv)
    as (g' & st' & Hrun & Hend).
  - intros j g1 st1 Hj Hinv1.
    destruct (animateGrid_cell_step (updated cols i j) i j g1 st1)
      as (g2 & st2 & Hrun2 & Hinv2); try lia; try assumption.
    + unfold updated. lia.
    + exists g2, st2. split; [exact Hrun2 |].
      eapply animate_inv_iff; [| exact Hinv2]. unfold updated. intros; lia.
  - exists g', st'. split; [exact Hrun |].
    eapply animate_inv_iff; [| exact Hend]. unfold updated. intros; lia.
Qed.

(** [animateGrid] returns, and has updated every node but those of the
    last line and of the last column *)
Lemma animateGrid_runs :
  pointer_at s mouse (heap st0) ->
  pointer_apart s g0 ->
  exists g st,
    animateGrid g0 s st0 = Some (g, st) /\ inv (animated lines cols) g st.
Proof.
  intros Hptr Hapart. unfold animateGrid. rewrite (wf_lines _ _ _ _ Hwf0).
  destruct (for_loop_invariant (fun i => inv (updated cols i 0))
              (fun lineIndex grid =>
                 let* line := defined (aget grid (Z.of_nat lineIndex)) in
                 for_loop 0 (length line - 1) (animateGrid_cell s lineIndex) grid)
              (lines - 1) 0 g0 st0)
    as (g & st & Hrun & Hend).
  - split; try assumption; try reflexivity.
    intros i j n0 Hcell.
    destruct (wf_org _ _ _ _ Hwf0 i j n0 Hcell) as [org Horg].
    destruct (wf_cur _ _ _ _ Hwf0 i j n0 Hcell) as [cur Hcur].
    exists n0, org, cur. split_and!; try assumption; try reflexivity.
    + unfold updated. lia.
    + intros _. split; [reflexivity | exact Hcur].
  - intros i g1 st1 Hi Hinv1. apply animateGrid_line_step; [lia | exact Hinv1].
  - exists g, st. split; [exact Hrun |].
    eapply animate_inv_iff; [| exact Hend]. unfold updated, animated. intros; lia.
Qed.

End AnimateLoops.

(** ** Drawing *)

Section Draw.
Context `{Host}.
Implicit Types (g : list (option (list (option Node.t)))) (st : state).

(** reading points and sending commands leaves the store as it is *)
Lemma forEach_load_emit (f : Point.t -> CanvasOp) (points : list nat) :
  forall st,
    Forall (fun l => is_Some (heap st !! l)) points ->
    exists ops,
      forEach points (fun point => let* p := load point in emit (f p)) st
      = Some (tt, mkState (heap st) (randoms st) (ctx st ++ ops)).
Proof.
  induction points as [| l points IH]; intros st Hall.
  - exists []. rewrite app_nil_r. now destruct st.
  - inversion Hall as [| ? ? [p Hp] Hrest]; subst.
    destruct (IH (mkState (heap st) (randoms st) (ctx st ++ [f p])) Hrest) as [ops Hrun].
    exists (f p :: ops). cbn [forEach].
    rewrite (bind_run _ _ st (mkState (heap st) (randoms st) (ctx st ++ [f p])) tt).
    + rewrite Hrun. cbn [heap randoms ctx]. now rewrite <- app_assoc.
    + rewrite (bind_run _ _ _ _ _ (load_run _ _ _ Hp)). reflexivity.
Qed.

Lemma fill_run (this : Polygon.t) st :
  Polygon.points this <> [] ->
  Forall (fun l => is_Some (heap st !! l)) (Polygon.points this) ->
  exists ops, fill this st = Some (tt, mkState (heap st) (randoms st) (ctx st ++ ops)).
Proof.
  intros Hne Hall. unfold fill.
  destruct (Polygon.points this) as [| first rest] eqn:Hpoints; [contradiction |].
  inversion Hall as [| ? ? [p Hp] Hrest]; subst.
  unfold emit at 1 2, bind at 1 2. cbn [heap randoms ctx].
  cbn [lookup list_lookup defined]. unfold ret at 1, bind at 1.
  set (st1 := mkState (heap st) (randoms st) ((ctx st ++ _) ++ _)).
  rewrite (bind_run _ _ _ _ _ (load_run first p st1 Hp)).
  unfold emit at 1, bind at 1. cbn [heap randoms ctx st1].
  set (st2 := mkState (heap st) (randoms st) _).
  destruct (forEach_load_emit (fun p => LineTo (Point.x p) (Point.y p)) (first :: rest) st2 Hall)
    as [ops Hrun].
  rewrite (bind_run _ _ _ _ _ Hrun). cbn [heap randoms ctx st2].
  unfold debug.
  destruct (Polygon.borderColor this) as [c |]; eexists;
    unfold emit, bind, ret; cbn [heap randoms ctx];
    rewrite <- ?app_assoc; reflexivity.
Qed.

(** the body of the inner loop of [drawGrid] draws a cell and leaves the
    store as it is *)
Lemma drawGrid_cell_run (ds : DrawSettings) (lines cols : nat) g (i j : nat) st :
  grid_wf lines cols g (heap st) ->
  i < lines - 1 -> j < cols - 1 ->
  exists st',
    drawGrid_cell ds g i j tt st = Some (tt, st') /\ heap st' = heap st.
Proof.
  intros Hwf Hi Hj.
  destruct (wf_cell _ _ _ _ Hwf i j ltac:(lia) ltac:(lia)) as [n00 H00].
  destruct (wf_cell _ _ _ _ Hwf (i + 1) j ltac:(lia) ltac:(lia)) as [n10 H10].
  destruct (wf_cell _ _ _ _ Hwf i (j + 1) ltac:(lia) ltac:(lia)) as [n01 H01].
  destruct (wf_cell _ _ _ _ Hwf (i + 1) (j + 1) ltac:(lia) ltac:(lia)) as [n11 H11].
  unfold drawGrid_cell.
  rewrite (bind_run _ _ _ _ _ (node_at_run _ _ _ _ _ H00)).
  rewrite (bind_run _ _ _ _ _ (getRandomColor_run _ _ _)).
  set (st1 := mkState (heap st) _ (ctx st)).
  rewrite (bind_run _ _ _ _ _ (node_at_run _ _ _ _ st1 H10)).
  rewrite (bind_run _ _ _ _ _ (node_at_run _ _ _ _ st1 H00)).
  rewrite (bind_run _ _ _ _ _ (node_at_run _ _ _ _ st1 H01)).
  rewrite (bind_run _ _ _ _ _ (node_at_run _ _ _ _ st1 H11)).
  edestruct (fill_run) as [ops Hrun]; [| | rewrite Hrun; eexists; split; reflexivity].
  - discriminate.
  - cbn [Polygon.points new_Polygon st1 heap].
    repeat constructor; eapply (wf_cur _ _ _ _ Hwf); eassumption.
Qed.

(** [drawGrid] returns and leaves the store as it is *)
Lemma drawGrid_run (ds : DrawSettings) (lines cols : nat) g st :
  grid_wf lines cols g (heap st) ->
  exists st', drawGrid g ds st = Some (tt, st') /\ heap st' = heap st.
Proof.
  intros Hwf. unfold drawGrid. rewrite (wf_lines _ _ _ _ Hwf).
  destruct (for_loop_invariant (fun _ (_ : unit) st' => heap st' = heap st)
              (fun lineIndex _ =>
                 let* line := defined (aget g (Z.of_nat lineIndex)) in
                 for_loop 0 (length line - 1) (drawGrid_cell ds g lineIndex) tt)
              (lines - 1) 0 tt st eq_refl)
    as ([] & st' & Hrun & Hend); [| eauto].
  intros i [] st1 Hi Hheap.
  destruct (wf_line _ _ _ _ Hwf i ltac:(lia)) as (line & Hline & Hlen).
  rewrite (aget_Some _ _ _ Hline). unfold defined, bind at 1, ret at 1. rewrite Hlen.
  apply (for_loop_invariant (fun _ (_ : unit) st' => heap st' = heap st)); [exact Hheap |].
  intros j [] st2 Hj Hheap2.
  destruct (drawGrid_cell_run ds lines cols g i j st2) as (st3 & Hrun3 & Hheap3);
    [rewrite Hheap2; exact Hwf | lia | lia |].
  exists tt, st3. split; [exact Hrun3 | congruence].
Qed.

End Draw.

(** ** The values of one update *)


Section AnimateValues.
Local Open Scope R_scope.
Implicit Types (ox oy mx my cx cy : R).

Lemma fromPoints_finite ox oy mx my :
  fromPoints (Point.mk (Num.Fin ox) (Num.Fin oy)) (Point.mk (Num.Fin mx) (Num.Fin my))
  = Vector.mk (Num.Fin (ox - mx)) (Num.Fin (oy - my)).
Proof. unfold fromPoints, Vector.new. simpl. now rewrite !or0_Fin. Qed.

Lemma getDistance_finite (dx dy : R) :
  Vector.getDistance (Vector.mk (Num.Fin dx) (Num.Fin dy))
  = Num.Fin (sqrt (dx * dx + dy * dy)).
Proof.
  unfold Vector.getDistance. simpl.
  rewrite Rltb_false by nra. simpl.
  rewrite Rabs_right by (apply Rle_ge, sqrt_pos).
  do 2 f_equal. ring.
Qed.





(** the influence, as the script computes it *)
Lemma influence_finite (d : R) :
  Num.sub (Num.Fin 1) (Num.pow (Num.div (Num.Fin d) (Num.Fin 420)) 2)
  = Num.Fin (influence d).
Proof.
  unfold Num.div. rewrite Reqb_false by lra. simpl. unfold influence. f_equal. ring.
Qed.







End AnimateValues.

(** ** The per-frame update: frame, pull, rest, settling *)

Section AnimateResults.
Context `{Host}.
Implicit Types (g : list (option (list (option Node.t)))) (st : state).
Implicit Types (s : AnimateSettings) (mouse : option Point.t).

(** what one call of [animateGrid] does to the node at [i], [j] *)
Lemma animateGrid_node s mouse (lines cols : nat) g st (i j : nat) (n : Node.t)
    (org cur : Point.t) :
  grid_wf lines cols g (heap st) ->
  pointer_at s mouse (heap st) ->
  pointer_apart s g ->
  cell g i j = Some n ->
  heap st !! Node.orgPos n = Some org ->
  heap st !! Node.currPos n = Some cur ->
  exists g' st' n',
    animateGrid g s st = Some (g', st') /\
    grid_wf lines cols g' (heap st') /\
    pointer_at s mouse (heap st') /\
    pointer_apart s g' /\
    cell g' i j = Some n' /\
    Node.orgPos n' = Node.orgPos n /\
    heap st' !! Node.orgPos n' = Some org /\
    (animated lines cols i j ->
       heap st' !! Node.currPos n' = Some (animate_point mouse org cur)) /\
    (~ animated lines cols i j -> heap st' !! Node.currPos n' = Some cur).
Proof.
  intros Hwf Hptr Hapart Hcell Horg Hcur.
  destruct (animateGrid_runs s mouse lines cols g st Hwf Hptr Hapart)
    as (g' & st' & Hrun & [Hwf' Hptr' Hapart' _ _ Hnodes]).
  destruct (Hnodes i j n Hcell)
    as (n' & org' & cur' & Hcell' & Ho & _ & _ & Horg0 & Horg' & Hcur0 & Hyes & Hno).
  assert (org' = org) by congruence. assert (cur' = cur) by congruence. subst org' cur'.
  exists g', st', n'. split_and!; try assumption.
  - now rewrite Ho.
  - intros Hn. now apply Hno.
Qed.

(** C9: [animateGrid] and [drawGrid] return, and leave the rest position
    of every node as it was: the node refers to the same [orgPos], and the
    point there has not changed. *)
Theorem orgPos_unchanged s mouse (lines cols : nat) g st :
  grid_wf lines cols g (heap st) ->
  pointer_at s mouse (heap st) ->
  pointer_apart s g ->
  (exists g' st',
     animateGrid g s st = Some (g', st') /\
     forall i j n, cell g i j = Some n ->
       exists n', cell g' i j = Some n' /\
                  Node.orgPos n' = Node.orgPos n /\
                  heap st' !! Node.orgPos n' = heap st !! Node.orgPos n) /\
  (forall ds, exists st', drawGrid g ds st = Some (tt, st') /\ heap st' = heap st).
Proof.
  intros Hwf Hptr Hapart. split.
  - destruct (animateGrid_runs s mouse lines cols g st Hwf Hptr Hapart)
      as (g' & st' & Hrun & [_ _ _ _ _ Hnodes]).
    exists g', st'. split; [exact Hrun |]. intros i j n Hcell.
    destruct (Hnodes i j n Hcell)
      as (n' & org & cur & Hcell' & Ho & _ & _ & Horg0 & Horg' & _).
    exists n'. split_and!; try assumption. rewrite Ho. congruence.
  - intros ds. now apply (drawGrid_run ds lines cols).
Qed.

Local Open Scope R_scope.



End AnimateResults.

(** ** Settling without a pointer *)

Section Settling.
Implicit Types (g : list (option (list (option Node.t)))) (st : state).
Implicit Types (s : AnimateSettings).
Local Open Scope R_scope.







End Settling.

(** ** The concrete run *)

Section Example.
Local Open Scope R_scope.

Lemma Zfloor_400_80 : Zfloor (400 / 80) = 5%Z.
Proof. apply Zfloor_eq. simpl. lra. Qed.

Lemma Zfloor_200_80 : Zfloor (200 / 80) = 2%Z.
Proof. apply Zfloor_eq. simpl. lra. Qed.

Lemma example_lines :
  array_length (@grid_lines example_host example_settings) = Some 10%nat.
Proof.
  unfold grid_lines. cbn [gridSize example_settings canvas_width example_host].
  rewrite array_length_quotient; [| lra | lia | right; lra | simpl; lra].
  now rewrite Zfloor_400_80.
Qed.

Lemma example_columns :
  array_length (@grid_columns example_host example_settings) = Some 7%nat.
Proof.
  unfold grid_columns. cbn [gridSize example_settings canvas_height example_host].
  rewrite array_length_quotient; [| lra | lia | right; lra | simpl; lra].
  now rewrite Zfloor_200_80.
Qed.



End Example.

(** ** The small grid *)

Section Tiny.
Local Open Scope R_scope.

Ltac tiny_cell Hc i j :=
  rewrite cell_lookup in Hc;
  destruct i as [| [| i]]; try discriminate Hc;
  destruct j as [| [| j]]; try discriminate Hc;
  injection Hc as <-.

Lemma tiny_wf (cur : Point.t) : grid_wf 2 2 tiny_grid (tiny_heap cur).
Proof.
  split.
  - reflexivity.
  - intros i Hi. destruct i as [| [| i]]; [eexists; split; reflexivity .. | lia].
  - intros i j Hi Hj. rewrite cell_lookup.
    destruct i as [| [| i]], j as [| [| j]]; try lia; simpl; eauto.
  - intros i j n Hc. tiny_cell Hc i j; simpl; eauto.
  - intros i j n Hc. tiny_cell Hc i j; simpl; eauto.
  - intros i j n i' j' n' Hc Hc'. tiny_cell Hc i j; tiny_cell Hc' i' j'; simpl; lia.
  - intros i j n i' j' n' Hc Hc'.
    tiny_cell Hc i j; tiny_cell Hc' i' j'; simpl; intros Heq; try lia; auto.
Qed.

Lemma tiny_apart (m : nat) : (8 <= m)%nat -> pointer_apart (pointer m) tiny_grid.
Proof.
  intros Hm m' i j n [= <-] Hc. tiny_cell Hc i j; simpl; lia.
Qed.

Lemma tiny_animated : animated 2 2 0 0.
Proof. unfold animated. lia. Qed.

Lemma tiny_cell_00 : cell tiny_grid 0 0 = Some (tiny_node 0 1).
Proof. reflexivity. Qed.

Lemma gap_3_4 : gap 0 0 3 4 = 5.
Proof.
  unfold gap. replace ((0 - 3) * (0 - 3) + (0 - 4) * (0 - 4)) with (5 * 5) by ring.
  apply sqrt_square. lra.
Qed.

Lemma influence_5 : 0 < influence 5.
Proof. unfold influence. lra. Qed.

End Tiny.

(** ** The results on the concrete runs *)

Section ConcreteRuns.
Local Open Scope R_scope.

Lemma example_color_valid : Color.valid (Color.mk (Num.of_Z 80) (Num.of_Z 9) (Num.of_Z 250)).
Proof. repeat split; eexists; (split; [reflexivity | lia]). Qed.

Lemma getRandomColor_zero_randomness_example :
  @getRandomColor example_host
    (Some (Color.mk (Num.of_Z 80) (Num.of_Z 9) (Num.of_Z 250))) (Num.Fin 0) initial_state
  = Some (Color.mk (Num.of_Z 80) (Num.of_Z 9) (Num.of_Z 250), mkState [] 3 []).
Proof.
  apply (@getRandomColor_zero_randomness example_host _ initial_state example_color_valid).
Defined.

Lemma getHexCode_example :
  exists r g b : Z,
    Color.mk (Num.of_Z 80) (Num.of_Z 9) (Num.of_Z 250)
    = Color.mk (Num.of_Z r) (Num.of_Z g) (Num.of_Z b) /\
    @Color.getHexCode example_host (Color.mk (Num.of_Z 80) (Num.of_Z 9) (Num.of_Z 250))
    = ("#" ++ two_hex r ++ two_hex g ++ two_hex b)%string /\
    String.length
      (@Color.getHexCode example_host (Color.mk (Num.of_Z 80) (Num.of_Z 9) (Num.of_Z 250)))
    = 7%nat.
Proof.
  apply (@getHexCode_seven_chars example_host _ example_color_valid).
Defined.

Lemma newGrid_nodes_at_rest_example :
  exists g st',
    @newGrid example_host example_settings initial_state = Some (g, st') /\
    (forall i j, (i < 10)%nat -> (j < 7)%nat -> is_Some (cell g i j)) /\
    forall i j n, cell g i j = Some n ->
      exists p, heap st' !! Node.orgPos n = Some p /\
                heap st' !! Node.currPos n = Some p.
Proof.
  apply (@newGrid_nodes_at_rest example_host example_settings initial_state 10 7
           example_lines example_columns).
Defined.


Lemma orgPos_unchanged_tiny :
  (exists g' st',
     animateGrid tiny_grid (pointer 8) (tiny_state (at_xy 51 0))
     = Some (g', st') /\
     forall i j n, cell tiny_grid i j = Some n ->
       exists n', cell g' i j = Some n' /\
                  Node.orgPos n' = Node.orgPos n /\
                  heap st' !! Node.orgPos n' = tiny_heap (at_xy 51 0) !! Node.orgPos n) /\
  (forall ds, exists st',
     @drawGrid example_host tiny_grid ds (tiny_state (at_xy 51 0)) = Some (tt, st') /\
     heap st' = tiny_heap (at_xy 51 0)).
Proof.
  apply (@orgPos_unchanged example_host (pointer 8) (Some (at_xy 3 4)) 2 2 tiny_grid
           (tiny_state (at_xy 51 0)) (tiny_wf _) eq_refl (tiny_apart 8 (le_n 8))).
Defined.






End ConcreteRuns.

(** * Further properties of the script *)

(** ** [limit] and the channels of a color *)

Section LimitFacts.
Local Open Scope R_scope.

Lemma limit_finite_cases (value : num) (lo hi : R) :
  lo <= hi -> value <> Num.NaN ->
  exists r, limit value (Num.Fin lo) (Num.Fin hi) = Num.Fin r /\ lo <= r <= hi.
Proof.
  intros Hle Hnan. unfold limit, Num.gt.
  destruct value as [v | | |]; try contradiction; simpl.
  - unfold Num.Rltb. destruct (Rlt_dec v lo) as [Hlo | Hlo].
    + exists lo. split; [reflexivity | lra].
    + destruct (Rlt_dec hi v) as [Hhi | Hhi].
      * exists hi. split; [reflexivity | lra].
      * exists v. split; [reflexivity | lra].
  - exists hi. split; [reflexivity | lra].
  - exists lo. split; [reflexivity | lra].
Qed.

(** X1: for bounds [lo <= hi], [limit] maps every value but [NaN] (the
    infinities included) into the interval from [lo] to [hi], and it
    changes nothing when it is applied a second time. *)
Theorem limit_clamps (value : num) (lo hi : R) :
  lo <= hi ->
  (value <> Num.NaN ->
   exists r, limit value (Num.Fin lo) (Num.Fin hi) = Num.Fin r /\ lo <= r <= hi) /\
  limit (limit value (Num.Fin lo) (Num.Fin hi)) (Num.Fin lo) (Num.Fin hi)
  = limit value (Num.Fin lo) (Num.Fin hi).
Proof.
  intros Hle. split; [now apply limit_finite_cases |].
  destruct value as [v | | |].
  - destruct (limit_finite_cases (Num.Fin v) lo hi Hle ltac:(discriminate))
      as (r & -> & Hr).
    unfold limit, Num.gt. simpl. now rewrite !Rltb_false by lra.
  - destruct (limit_finite_cases Num.PInf lo hi Hle ltac:(discriminate))
      as (r & -> & Hr).
    unfold limit, Num.gt. simpl. now rewrite !Rltb_false by lra.
  - destruct (limit_finite_cases Num.NInf lo hi Hle ltac:(discriminate))
      as (r & -> & Hr).
    unfold limit, Num.gt. simpl. now rewrite !Rltb_false by lra.
  - reflexivity.
Qed.

End LimitFacts.

Section ChannelFacts.
Context `{Host}.
Local Open Scope R_scope.

(** X2: [NaN] passes through [limit]: a setter that is given [NaN] or an
    infinity stores [NaN], and so does the constructor for an infinity,
    while it stores 0 for [NaN] (or a missing argument). *)
Theorem channel_of_NaN_or_infinity (c : Color.t) (g b : num) :
  (forall v, v = Num.NaN \/ v = Num.PInf \/ v = Num.NInf ->
     Color.r (Color.set_r v c) = Num.NaN /\
     Color.g (Color.set_g v c) = Num.NaN /\
     Color.b (Color.set_b v c) = Num.NaN) /\
  (forall v, v = Num.PInf \/ v = Num.NInf ->
     Color.r (Color.new v g b) = Num.NaN) /\
  Color.r (Color.new Num.NaN g b) = Num.Fin 0.
Proof.
  split; [| split].
  - intros v [-> | [-> | ->]]; repeat split; reflexivity.
  - intros v [-> | ->]; reflexivity.
  - unfold Color.new, Color.set_r, Color.set_g, Color.set_b, Color.r. simpl.
    change (Num.or0 Num.NaN) with (Num.Fin 0).
    unfold parseInt. rewrite plain_decimal_0.
    unfold Num.trunc. rewrite Rltb_false by lra.
    rewrite ZfloorZ. unfold limit, Num.gt, Num.of_Z. simpl.
    now rewrite !Rltb_false by lra.
Qed.

(** X3: a finite number that prints in plain decimal notation is cut to
    its integer part, toward zero, before it is clamped: the channel is
    [max 0 (min (trunc v) 255)], not the nearest integer. *)
Theorem channel_is_truncated (v : R) (c : Color.t) :
  v = 0 \/ (/ 1000000 <= Rabs v < 10 ^ 21) ->
  Color.r (Color.set_r (Num.Fin v) c) = Num.of_Z (Z.max 0 (Z.min (Num.trunc v) 255)) /\
  Color.g (Color.set_g (Num.Fin v) c) = Num.of_Z (Z.max 0 (Z.min (Num.trunc v) 255)) /\
  Color.b (Color.set_b (Num.Fin v) c) = Num.of_Z (Z.max 0 (Z.min (Num.trunc v) 255)).
Proof.
  intros Hv.
  assert (Hplain : Num.plain_decimal v = true).
  { destruct Hv as [-> | [Hlo Hhi]]; [apply plain_decimal_0 |].
    unfold Num.plain_decimal. rewrite (Rltb_false _ _ Hlo), (Rltb_true _ _ Hhi).
    now rewrite orb_true_r. }
  unfold Color.r, Color.g, Color.b, Color.set_r, Color.set_g, Color.set_b. simpl.
  unfold parseInt. rewrite Hplain, limit_of_Z. repeat split; reflexivity.
Qed.

End ChannelFacts.

(** ** Hexadecimal codes tell colors apart *)

Section HexInjective.
Context `{Host}.

Lemma two_hex_injective (a b : Z) :
  (0 <= a <= 255)%Z -> (0 <= b <= 255)%Z -> two_hex a = two_hex b -> a = b.
Proof.
  intros Ha Hb Heq.
  assert (Hall : forallb (fun m =>
                    forallb (fun n =>
                       implb (String.eqb (two_hex (Z.of_nat m)) (two_hex (Z.of_nat n)))
                             (Nat.eqb m n))
                      (seq 0 256))
                   (seq 0 256) = true) by (vm_compute; reflexivity).
  rewrite forallb_forall in Hall.
  specialize (Hall (Z.to_nat a) ltac:(apply in_seq; lia)).
  rewrite forallb_forall in Hall.
  specialize (Hall (Z.to_nat b) ltac:(apply in_seq; lia)).
  rewrite !Z2Nat.id in Hall by lia.
  rewrite Heq, String.eqb_refl in Hall. simpl in Hall.
  apply Nat.eqb_eq in Hall. lia.
Qed.

(** X4: two colors whose channels are integers of 0..255 have the same
    hexadecimal code only if they are the same color. *)
Theorem getHexCode_injective (c d : Color.t) :
  Color.valid c -> Color.valid d ->
  Color.getHexCode c = Color.getHexCode d -> c = d.
Proof.
  destruct c as [cr cg cb], d as [dr dg db].
  intros ([r [Hr Hr']] & [g [Hg Hg']] & [b [Hb Hb']]).
  intros ([r2 [Hr2 Hr2']] & [g2 [Hg2 Hg2']] & [b2 [Hb2 Hb2']]).
  simpl in *. subst.
  rewrite !getHexCode_bytes, !hex_channel_two_hex by assumption.
  unfold two_hex. simpl. intros Heq.
  injection Heq as Hr1 Hr0 Hg1 Hg0 Hb1 Hb0.
  rewrite (two_hex_injective r r2), (two_hex_injective g g2), (two_hex_injective b b2);
    try assumption; try reflexivity; unfold two_hex; congruence.
Qed.

End HexInjective.

(** ** Vectors, points and lines *)

Section Geometry.
Local Open Scope R_scope.
Implicit Types (x y : R).





(** X7: inverting a finite vector twice gives the vector back, and
    inverting does not change its length. *)
Theorem invert_involutive x y :
  let v := Vector.mk (Num.Fin x) (Num.Fin y) in
  Vector.invert (Vector.invert v) = v /\
  Vector.getDistance (Vector.invert v) = Vector.getDistance v.
Proof.
  intros v. unfold v, Vector.invert, Vector.new. simpl. rewrite !or0_Fin. simpl.
  rewrite !or0_Fin. split.
  - f_equal; f_equal; ring.
  - rewrite !getDistance_finite. do 2 f_equal. ring.
Qed.


Lemma eq_true_inv (a b : num) : Num.eq a b = true -> a = b.
Proof.
  destruct a as [u | | |], b as [v | | |]; simpl; try discriminate; try reflexivity.
  unfold Num.Reqb. destruct (Req_dec_T u v) as [-> | _]; [reflexivity | discriminate].
Qed.

Lemma eq_refl_not_NaN (a : num) : a <> Num.NaN -> Num.eq a a = true.
Proof.
  destruct a as [u | | |]; simpl; try reflexivity; [| contradiction].
  intros _. now apply Reqb_true.
Qed.

(** X9: [isEqual] holds only between points with the same coordinates; a
    point made by [new Point] is equal to itself, a point with a [NaN]
    coordinate is not. *)
Theorem isEqual_spec :
  (forall p q, Point.isEqual p q = true -> p = q) /\
  (forall a b, Point.isEqual (Point.new a b) (Point.new a b) = true) /\
  (forall b, Point.isEqual (Point.mk Num.NaN b) (Point.mk Num.NaN b) = false).
Proof.
  split; [| split].
  - intros [px py] [qx qy]. unfold Point.isEqual. simpl.
    intros Heq. apply andb_prop in Heq. destruct Heq as [Hx Hy].
    apply eq_true_inv in Hx, Hy. congruence.
  - intros a b. unfold Point.isEqual, Point.new. simpl.
    rewrite !eq_refl_not_NaN by apply or0_not_NaN. reflexivity.
  - intros b. reflexivity.
Qed.


End Geometry.

(** ** Random integers and colors *)

Section RandomBounds.
Context `{Host}.
Local Open Scope R_scope.






End RandomBounds.

(** ** More about the grid that [newGrid] builds *)

Section NewGridExtras.
Context `{Host}.
Implicit Types (s : GridSettings) (st : state).
Local Open Scope R_scope.

Lemma parseInt_not_finite (v : num) :
  v = Num.PInf \/ v = Num.NInf \/ v = Num.NaN -> parseInt v = Num.NaN.
Proof. intros [-> | [-> | ->]]; reflexivity. Qed.

(** X14: with a cell size of 0, or without one ([NaN]), [newGrid] throws
    (the length of the array is not a number) and returns no grid. *)
Theorem newGrid_throws_without_cell_size s st :
  gridSize s = Num.Fin 0 \/ gridSize s = Num.NaN ->
  newGrid s st = None.
Proof.
  intros Hgs. unfold newGrid, new_Array.
  assert (Hq : parseInt (Num.div (Num.of_Z canvas_width) (gridSize s)) = Num.NaN).
  { apply parseInt_not_finite. destruct Hgs as [-> | ->]; [| auto].
    unfold Num.div, Num.of_Z. rewrite Reqb_true by reflexivity.
    unfold Num.scale_inf. destruct (Num.Rltb 0 _); [auto |].
    destruct (Num.Rltb _ 0); auto. }
  rewrite Hq. reflexivity.
Qed.

(** X15: a successful [newGrid] adds four points per node to the store
    and leaves the points that were there as they are, draws eleven
    random numbers per node, and sends nothing to the canvas. *)
Theorem newGrid_effects s st (lines cols : nat) :
  array_length (grid_lines s) = Some lines ->
  array_length (grid_columns s) = Some cols ->
  exists g st' ext,
    newGrid s st = Some (g, st') /\
    heap st' = heap st ++ ext /\
    length ext = (4 * (lines * cols))%nat /\
    randoms st' = (randoms st + 11 * (lines * cols))%nat /\
    ctx st' = ctx st.
Proof.
  intros Hlines Hcols.
  destruct (newGrid_result s st lines cols Hlines Hcols)
    as (g & st' & Hrun & [_ _ _ Hheap [ext Hext] Hrand Hctx] & _ & _).
  exists g, st', ext. split_and!; try assumption.
  - rewrite Hext, length_app in Hheap. lia.
  - rewrite Hrand. lia.
Qed.

(** X16: the grid that [newGrid] returns is full and free of sharing:
    every position of the [lines] by [cols] grid holds a node, the two
    points of every node are in the store, no [currPos] is the [orgPos] of
    a node, and no two nodes have the same [currPos]. *)
Theorem newGrid_well_formed s st (lines cols : nat) :
  array_length (grid_lines s) = Some lines ->
  array_length (grid_columns s) = Some cols ->
  exists g st', newGrid s st = Some (g, st') /\ grid_wf lines cols g (heap st').
Proof.
  intros Hlines Hcols.
  destruct (newGrid_result s st lines cols Hlines Hcols) as (g & st' & Hrun & _ & Hwf & _).
  eauto.
Qed.




End NewGridExtras.

(** ** More about [animateGrid] *)

Section AnimateExtras.
Implicit Types (g : list (option (list (option Node.t)))) (st : state).
Implicit Types (s : AnimateSettings) (mouse : option Point.t).
Local Open Scope R_scope.

(** X19: [animateGrid] leaves the nodes of the last line and of the last
    column as they are: the same node, and the same point at its
    [currPos]. *)
Theorem animateGrid_keeps_border s mouse (lines cols : nat) g st :
  grid_wf lines cols g (heap st) ->
  pointer_at s mouse (heap st) ->
  pointer_apart s g ->
  exists g' st',
    animateGrid g s st = Some (g', st') /\
    forall i j n, cell g i j = Some n -> ~ animated lines cols i j ->
      cell g' i j = Some n /\
      heap st' !! Node.currPos n = heap st !! Node.currPos n.
Proof.
  intros Hwf Hptr Hapart.
  destruct (animateGrid_runs s mouse lines cols g st Hwf Hptr Hapart)
    as (g' & st' & Hrun & [_ _ _ _ _ Hnodes]).
  exists g', st'. split; [exact Hrun |]. intros i j n Hcell Hnot.
  destruct (Hnodes i j n Hcell)
    as (n' & org & cur & Hcell' & Ho & Hc1 & Hc2 & _ & _ & Hcur0 & _ & Hno).
  destruct (Hno Hnot) as [Hsame Hcur].
  assert (n' = n) by (destruct n', n; simpl in *; congruence). subst n'.
  split; [exact Hcell' | congruence].
Qed.

(** X20: [animateGrid] keeps a grid well formed, keeps the pointer where
    it is, keeps the colors of every node, draws no random number and
    sends nothing to the canvas: it can be called again on its result. *)
Theorem animateGrid_preserves s mouse (lines cols : nat) g st :
  grid_wf lines cols g (heap st) ->
  pointer_at s mouse (heap st) ->
  pointer_apart s g ->
  exists g' st',
    animateGrid g s st = Some (g', st') /\
    grid_wf lines cols g' (heap st') /\
    pointer_at s mouse (heap st') /\
    pointer_apart s g' /\
    randoms st' = randoms st /\
    ctx st' = ctx st /\
    forall i j n, cell g i j = Some n ->
      exists n', cell g' i j = Some n' /\
                 Node._color n' = Node._color n /\ Node.color n' = Node.color n.
Proof.
  intros Hwf Hptr Hapart.
  destruct (animateGrid_runs s mouse lines cols g st Hwf Hptr Hapart)
    as (g' & st' & Hrun & [Hwf' Hptr' Hapart' Hrand Hctx Hnodes]).
  exists g', st'. split_and!; try assumption.
  intros i j n Hcell.
  destruct (Hnodes i j n Hcell) as (n' & org & cur & Hcell' & _ & Hc1 & Hc2 & _).
  eauto.
Qed.

(** within reach of the pointer the new point does not depend on the old
    one *)
Lemma pointer_value_in_reach (ox oy mx my : R) (c1 c2 : Point.t) :
  0 < influence (gap ox oy mx my) ->
  pointer_value (Some (Point.mk (Num.Fin mx) (Num.Fin my)))
    (Point.mk (Num.Fin ox) (Num.Fin oy)) c1
  = pointer_value (Some (Point.mk (Num.Fin mx) (Num.Fin my)))
      (Point.mk (Num.Fin ox) (Num.Fin oy)) c2.
Proof.
  intros Hk. unfold pointer_value.
  rewrite fromPoints_finite, getDistance_finite. fold (gap ox oy mx my).
  rewrite influence_finite. unfold Num.gt. simpl Num.lt.
  now rewrite Rltb_true by exact Hk.
Qed.



(** X22: for a node in reach of the pointer, a second call of
    [animateGrid] with the pointer unmoved puts the node exactly where the
    first call has put it. *)
Theorem animateGrid_twice_in_reach s (lines cols : nat) g st (i j : nat) (n : Node.t)
    (ox oy mx my : R) (cur : Point.t) :
  grid_wf lines cols g (heap st) ->
  pointer_at s (Some (Point.mk (Num.Fin mx) (Num.Fin my))) (heap st) ->
  pointer_apart s g ->
  animated lines cols i j ->
  cell g i j = Some n ->
  heap st !! Node.orgPos n = Some (Point.mk (Num.Fin ox) (Num.Fin oy)) ->
  heap st !! Node.currPos n = Some cur ->
  0 < influence (gap ox oy mx my) ->
  exists g1 st1 n1 g2 st2 n2 p,
    animateGrid g s st = Some (g1, st1) /\
    animateGrid g1 s st1 = Some (g2, st2) /\
    cell g1 i j = Some n1 /\ cell g2 i j = Some n2 /\
    heap st1 !! Node.currPos n1 = Some p /\
    heap st2 !! Node.currPos n2 = Some p.
Proof.
  intros Hwf Hptr Hapart Hanim Hcell Horg Hcur Hk.
  destruct (animateGrid_node s _ lines cols g st i j n _ _ Hwf Hptr Hapart Hcell Horg Hcur)
    as (g1 & st1 & n1 & Hrun1 & Hwf1 & Hptr1 & Hapart1 & Hcell1 & _ & Horg1 & Hyes1 & _).
  specialize (Hyes1 Hanim).
  destruct (animateGrid_node s _ lines cols g1 st1 i j n1 _ _ Hwf1 Hptr1 Hapart1 Hcell1
              Horg1 Hyes1)
    as (g2 & st2 & n2 & Hrun2 & _ & _ & _ & Hcell2 & _ & _ & Hyes2 & _).
  specialize (Hyes2 Hanim).
  eexists g1, st1, n1, g2, st2, n2, _. split_and!; try eassumption.
  rewrite Hyes2. unfold animate_point. f_equal. f_equal.
  now apply pointer_value_in_reach.
Qed.

End AnimateExtras.

(** ** More about drawing *)

Section DrawExtras.
Context `{Host}.
Implicit Types (g : list (option (list (option Node.t)))) (st : state).

Lemma forEach_load_emit_exact (f : Point.t -> CanvasOp) (points : list nat) :
  forall (pts : list Point.t) st,
    Forall2 (fun l p => heap st !! l = Some p) points pts ->
    forEach points (fun point => let* p := load point in emit (f p)) st
    = Some (tt, mkState (heap st) (randoms st) (ctx st ++ map f pts)).
Proof.
  induction points as [| l points IH]; intros pts st Hall;
    inversion Hall as [| ? p ? pts' Hp Hrest]; subst.
  - simpl. rewrite app_nil_r. now destruct st.
  - cbn [forEach map].
    rewrite (bind_run _ _ st (mkState (heap st) (randoms st) (ctx st ++ [f p])) tt).
    + rewrite (IH pts' (mkState (heap st) (randoms st) (ctx st ++ [f p])) Hrest).
      cbn [heap randoms ctx]. now rewrite <- app_assoc.
    + rewrite (bind_run _ _ _ _ _ (load_run _ _ _ Hp)). reflexivity.
Qed.

(** the commands of [fill] for a polygon whose points are in the store *)
Lemma fill_exact (this : Polygon.t) (pts : list Point.t) st :
  Polygon.points this <> [] ->
  Forall2 (fun l p => heap st !! l = Some p) (Polygon.points this) pts ->
  fill this st
  = Some (tt, mkState (heap st) (randoms st)
                (ctx st ++ fill_ops (Polygon.color this) (Polygon.borderColor this) pts)).
Proof.
  intros Hne Hall. unfold fill, fill_ops.
  destruct (Polygon.points this) as [| first rest] eqn:Hpoints; [contradiction |].
  inversion Hall as [| ? p ? pts' Hp Hrest]; subst.
  unfold emit at 1 2, bind at 1 2. cbn [heap randoms ctx].
  cbn [lookup list_lookup defined]. unfold ret at 1, bind at 1.
  set (st1 := mkState (heap st) (randoms st) ((ctx st ++ _) ++ _)).
  rewrite (bind_run _ _ _ _ _ (load_run first p st1 Hp)).
  unfold emit at 1, bind at 1. cbn [heap randoms ctx st1].
  set (st2 := mkState (heap st) (randoms st) _).
  rewrite (bind_run _ _ _ _ _
             (forEach_load_emit_exact (fun p => LineTo (Point.x p) (Point.y p))
                (first :: rest) (p :: pts') st2 Hall)).
  cbn [heap randoms ctx st2]. unfold debug.
  destruct (Polygon.borderColor this) as [c |];
    unfold emit, bind, ret; cbn [heap randoms ctx];
    rewrite <- ?app_assoc; reflexivity.
Qed.

(** X23: [fill] throws for a polygon without points; for a polygon whose
    points are in the store it leaves the store as it is and sends
    exactly: the fill style, [beginPath], [moveTo] the first point,
    [lineTo] every point in order, [closePath], [fill], and the stroke
    style with [stroke] only if there is a border color. *)
Theorem fill_commands (this : Polygon.t) (pts : list Point.t) st :
  (Polygon.points this = [] -> fill this st = None) /\
  (Polygon.points this <> [] ->
   Forall2 (fun l p => heap st !! l = Some p) (Polygon.points this) pts ->
   fill this st
   = Some (tt, mkState (heap st) (randoms st)
                 (ctx st ++ fill_ops (Polygon.color this) (Polygon.borderColor this) pts))).
Proof.
  split.
  - intros Hempty. unfold fill. rewrite Hempty. reflexivity.
  - apply fill_exact.
Qed.

Lemma count_fills_app (a b : list CanvasOp) :
  count_fills (a ++ b) = count_fills a + count_fills b.
Proof.
  induction a as [| op a IH]; [reflexivity |].
  destruct op; simpl; rewrite IH; reflexivity.
Qed.

Lemma count_fills_lines (pts : list Point.t) :
  count_fills (map (fun p => LineTo (Point.x p) (Point.y p)) pts) = 0.
Proof. induction pts as [| p pts IH]; [reflexivity | exact IH]. Qed.

Lemma count_fills_fill_ops (color : Color.t) (border : option Color.t) (pts : list Point.t) :
  count_fills (fill_ops color border pts) = 1.
Proof.
  unfold fill_ops. rewrite !count_fills_app, count_fills_lines.
  destruct pts, border; reflexivity.
Qed.

(** what the body of the inner loop of [drawGrid] does for one cell *)
Lemma drawGrid_cell_exact (ds : DrawSettings) (lines cols : nat) g (i j : nat) st :
  grid_wf lines cols g (heap st) ->
  i < lines - 1 -> j < cols - 1 ->
  exists n pts,
    cell g i j = Some n /\
    drawGrid_cell ds g i j tt st
    = Some (tt, mkState (heap st) (S (S (S (randoms st))))
                  (ctx st ++ fill_ops
                     (tint ds (getRandomColor_at (randoms st) (Some (Node.color n))
                                 (Num.Fin 0)))
                     (borderColor ds) pts)).
Proof.
  intros Hwf Hi Hj.
  destruct (wf_cell _ _ _ _ Hwf i j ltac:(lia) ltac:(lia)) as [n00 H00].
  destruct (wf_cell _ _ _ _ Hwf (i + 1) j ltac:(lia) ltac:(lia)) as [n10 H10].
  destruct (wf_cell _ _ _ _ Hwf i (j + 1) ltac:(lia) ltac:(lia)) as [n01 H01].
  destruct (wf_cell _ _ _ _ Hwf (i + 1) (j + 1) ltac:(lia) ltac:(lia)) as [n11 H11].
  destruct (wf_cur _ _ _ _ Hwf _ _ _ H00) as [p00 Hp00].
  destruct (wf_cur _ _ _ _ Hwf _ _ _ H10) as [p10 Hp10].
  destruct (wf_cur _ _ _ _ Hwf _ _ _ H01) as [p01 Hp01].
  destruct (wf_cur _ _ _ _ Hwf _ _ _ H11) as [p11 Hp11].
  exists n00, [p10; p00; p01; p11]. split; [exact H00 |].
  unfold drawGrid_cell.
  rewrite (bind_run _ _ _ _ _ (node_at_run _ _ _ _ _ H00)).
  rewrite (bind_run _ _ _ _ _ (getRandomColor_run _ _ _)).
  set (st1 := mkState (heap st) _ (ctx st)).
  rewrite (bind_run _ _ _ _ _ (node_at_run _ _ _ _ st1 H10)).
  rewrite (bind_run _ _ _ _ _ (node_at_run _ _ _ _ st1 H00)).
  rewrite (bind_run _ _ _ _ _ (node_at_run _ _ _ _ st1 H01)).
  rewrite (bind_run _ _ _ _ _ (node_at_run _ _ _ _ st1 H11)).
  apply (fill_exact
           (new_Polygon [Node.currPos n10; Node.currPos n00; Node.currPos n01;
                         Node.currPos n11]
              (Some (tint ds (getRandomColor_at (randoms st) (Some (Node.color n00))
                                (Num.Fin 0))))
              (borderColor ds))
           [p10; p00; p01; p11] st1); [discriminate |].
  repeat constructor; assumption.
Qed.

(** the effects of [drawGrid], cell by cell *)
Lemma drawGrid_effects (ds : DrawSettings) (lines cols : nat) g st :
  grid_wf lines cols g (heap st) ->
  exists st' ops,
    drawGrid g ds st = Some (tt, st') /\
    heap st' = heap st /\
    randoms st' = randoms st + 3 * ((lines - 1) * (cols - 1)) /\
    ctx st' = ctx st ++ ops /\
    count_fills ops = (lines - 1) * (cols - 1) /\
    ((lines - 1) * (cols - 1) = 0 -> ops = []).
Proof.
  intros Hwf. unfold drawGrid. rewrite (wf_lines _ _ _ _ Hwf).
  remember (cols - 1) as c eqn:Hc. remember (lines - 1) as l eqn:Hl.
  set (I := fun (n : nat) (st' : state) =>
              heap st' = heap st /\
              randoms st' = randoms st + 3 * n /\
              exists ops, ctx st' = ctx st ++ ops /\ count_fills ops = n /\
                          (n = 0 -> ops = [])).
  destruct (for_loop_invariant (fun i (_ : unit) st' => I (i * c) st')
              (fun lineIndex _ =>
                 let* line := defined (aget g (Z.of_nat lineIndex)) in
                 for_loop 0 (length line - 1) (drawGrid_cell ds g lineIndex) tt)
              l 0 tt st)
    as ([] & st' & Hrun & Hheap & Hrand & ops & Hctx & Hcount & Hnil).
  - repeat split; [simpl; lia |]. exists []. now rewrite app_nil_r.
  - intros i [] st1 Hi Hinv.
    destruct (wf_line _ _ _ _ Hwf i ltac:(lia)) as (line & Hline & Hlen).
    rewrite (aget_Some _ _ _ Hline). unfold defined, bind at 1, ret at 1.
    rewrite Hlen, <- Hc.
    destruct (for_loop_invariant (fun j (_ : unit) st' => I (i * c + j) st')
                (drawGrid_cell ds g i) c 0 tt st1)
      as ([] & st2 & Hrun2 & Hinv2).
    + now rewrite Nat.add_0_r.
    + intros j [] st3 Hj (Hheap3 & Hrand3 & ops3 & Hctx3 & Hcount3 & _).
      destruct (drawGrid_cell_exact ds lines cols g i j st3) as (n & pts & _ & Hcell);
        [rewrite Hheap3; exact Hwf | lia | lia |].
      eexists tt, _. split; [exact Hcell |]. unfold I. cbn [heap randoms ctx].
      split; [exact Hheap3 |]. split; [lia |].
      eexists. split; [rewrite Hctx3, <- app_assoc; reflexivity |].
      split; [| lia]. rewrite count_fills_app, count_fills_fill_ops. lia.
    + exists tt, st2. split; [exact Hrun2 |].
      replace (S i * c) with (i * c + (0 + c)) by lia.
      exact Hinv2.
  - exists st', ops. simpl in *. split_and!; assumption.
Qed.

(** X24: [drawGrid] fills one polygon for every node that is not in the
    last line or the last column, [(lines-1) * (cols-1)] in all, draws
    three random numbers for each, and leaves the store as it is; a grid
    with a single line or a single column is not drawn at all. *)
Theorem drawGrid_fills_every_cell (ds : DrawSettings) (lines cols : nat) g st :
  grid_wf lines cols g (heap st) ->
  exists st' ops,
    drawGrid g ds st = Some (tt, st') /\
    heap st' = heap st /\
    randoms st' = randoms st + 3 * ((lines - 1) * (cols - 1)) /\
    ctx st' = ctx st ++ ops /\
    count_fills ops = (lines - 1) * (cols - 1) /\
    ((lines - 1) * (cols - 1) = 0 -> ops = []).
Proof. apply drawGrid_effects. Qed.

Section Tint.
Local Open Scope R_scope.



End Tint.

End DrawExtras.

(** ** The script as a whole *)

Section DriverExtras.
Context `{Host}.
Implicit Types (g : list (option (list (option Node.t)))) (st : state) (sc : Script.t).

Lemma grid_wf_app (lines cols : nat) g (h ext : list Point.t) :
  grid_wf lines cols g h -> grid_wf lines cols g (h ++ ext).
Proof.
  intros [H1 H2 H3 H4 H5 H6 H7]. split; try assumption.
  - intros i j n Hcell. destruct (H4 i j n Hcell) as [p Hp].
    exists p. now apply lookup_app_l_Some.
  - intros i j n Hcell. destruct (H5 i j n Hcell) as [p Hp].
    exists p. now apply lookup_app_l_Some.
Qed.

Lemma nodes_kept_refl g st : nodes_kept g st g st.
Proof. intros i j n Hcell. exists n. now split_and!. Qed.

Lemma nodes_kept_trans g1 st1 g2 st2 g3 st3 :
  nodes_kept g1 st1 g2 st2 -> nodes_kept g2 st2 g3 st3 -> nodes_kept g1 st1 g3 st3.
Proof.
  intros H12 H23 i j n Hcell.
  destruct (H12 i j n Hcell) as (n2 & Hcell2 & Ho2 & Hc2 & Hd2 & Hh2).
  destruct (H23 i j n2 Hcell2) as (n3 & Hcell3 & Ho3 & Hc3 & Hd3 & Hh3).
  exists n3. split_and!; congruence.
Qed.

(** what the listener of mouse moves does *)
Lemma on_mousemove_run (ev : MouseMove) (now : num) sc st :
  on_mousemove ev now sc st
  = Some (Script.mk (Script.grid sc) (length (heap st) + 2) now (Script.lastRender sc)
            (Script.listening sc),
          mkState
            (heap st ++
             [Point.new (rect_left ev) (rect_top ev);
              Point.new (clientX ev) (clientY ev);
              Point.new
                (Num.mul (Num.sub (Num.or0 (clientX ev)) (Num.or0 (rect_left ev)))
                         (Num.div (Num.of_Z canvas_width) (clientWidth ev)))
                (Num.mul (Num.sub (Num.or0 (clientY ev)) (Num.or0 (rect_top ev)))
                         (Num.div (Num.of_Z canvas_height) (clientHeight ev)))])
            (randoms st) (ctx st)).
Proof.
  unfold on_mousemove, alloc at 1 2, bind at 1 2. cbn [heap randoms ctx].
  unfold load at 1, bind at 1. cbn [heap randoms ctx].
  rewrite length_app. cbn [length].
  rewrite lookup_app_r by (rewrite length_app; simpl; lia).
  rewrite length_app. cbn [length].
  replace (length (heap st) + 1 - (length (heap st) + 1)) with 0 by lia.
  cbn [lookup list_lookup].
  unfold load at 1, bind at 1. cbn [heap randoms ctx].
  rewrite <- app_assoc. rewrite lookup_app_r by lia.
  replace (length (heap st) - length (heap st)) with 0 by lia.
  cbn [app lookup list_lookup].
  unfold alloc, bind, ret. cbn [heap randoms ctx Point.x Point.y Point.new].
  rewrite length_app. cbn [length].
  rewrite <- app_assoc. cbn [app].
  reflexivity.
Qed.

Lemma on_mousemove_ok (lines cols : nat) (ev : MouseMove) (now : num) sc st :
  script_ok lines cols sc st ->
  exists sc' st',
    on_mousemove ev now sc st = Some (sc', st') /\
    script_ok lines cols sc' st' /\
    nodes_kept (Script.grid sc) st (Script.grid sc') st' /\
    ctx st' = ctx st.
Proof.
  intros [Hwf Hptr Hapart]. rewrite on_mousemove_run. eexists _, _.
  split; [reflexivity |]. split; [split |]; cbn [Script.grid Script.mousePos heap ctx].
  - apply grid_wf_app. exact Hwf.
  - apply lookup_lt_is_Some. rewrite length_app. simpl. lia.
  - intros i j n Hcell. destruct (wf_cur _ _ _ _ Hwf i j n Hcell) as [p Hp].
    apply lookup_lt_Some in Hp. lia.
  - split; [| reflexivity]. intros i j n Hcell. exists n.
    split_and!; try reflexivity; try assumption.
    destruct (wf_org _ _ _ _ Hwf i j n Hcell) as [p Hp].
    rewrite Hp. now apply lookup_app_l_Some.
Qed.

(** a frame after a mouse move: the grid is animated and drawn *)
Lemma on_frame_renders (lines cols : nat) (now : num) sc st :
  script_ok lines cols sc st ->
  Num.gt (Script.lastMouseMove sc) (Script.lastRender sc) = true ->
  exists g' st' ops,
    on_frame now sc st
    = Some (Script.mk g' (Script.mousePos sc) (Script.lastMouseMove sc) now
              (Script.listening sc), st') /\
    script_ok lines cols
      (Script.mk g' (Script.mousePos sc) (Script.lastMouseMove sc) now
         (Script.listening sc)) st' /\
    nodes_kept (Script.grid sc) st g' st' /\
    ctx st' = ctx st ++ ops /\
    count_fills ops = (lines - 1) * (cols - 1).
Proof.
  intros [Hwf [p Hp] Hapart] Hgt. unfold on_frame. rewrite Hgt.
  destruct (animateGrid_runs {| mousePos := Some (Script.mousePos sc) |} (Some p)
              lines cols (Script.grid sc) st Hwf)
    as (g' & st1 & Hrun & [Hwf1 Hptr1 Hapart1 Hrand1 Hctx1 Hnodes]).
  { exact Hp. }
  { intros m i j n Hm Hcell. injection Hm as <-. eauto. }
  destruct (drawGrid_effects draw_settings lines cols g' st1 Hwf1)
    as (st2 & ops & Hdraw & Hheap2 & _ & Hctx2 & Hcount & _).
  exists g', st2, ops.
  rewrite (bind_run _ _ _ _ _ Hrun), (bind_run _ _ _ _ _ Hdraw).
  split; [reflexivity |]. split; [split |]; cbn [Script.grid Script.mousePos].
  - rewrite Hheap2. exact Hwf1.
  - rewrite Hheap2. exists p. exact Hptr1.
  - intros i j n Hcell. exact (Hapart1 _ i j n eq_refl Hcell).
  - split; [| split; [congruence | exact Hcount]].
    intros i j n0 Hcell.
    destruct (Hnodes i j n0 Hcell)
      as (n & org & cur & Hcell' & Ho & Hc1 & Hc2 & Horg0 & Horg1 & _).
    exists n. split_and!; try assumption. rewrite Hheap2. congruence.
Qed.

Lemma handle_ok (lines cols : nat) (e : Event) sc st :
  script_ok lines cols sc st ->
  exists sc' st',
    handle e sc st = Some (sc', st') /\
    script_ok lines cols sc' st' /\
    nodes_kept (Script.grid sc) st (Script.grid sc') st'.
Proof.
  intros Hok. destruct e as [| ev now | now]; cbn [handle].
  - eexists _, _. split; [reflexivity |]. destruct Hok as [Hwf Hptr Hapart].
    split; [split; assumption | apply nodes_kept_refl].
  - destruct (Script.listening sc).
    + destruct (on_mousemove_ok lines cols ev now sc st Hok)
        as (sc' & st' & Hrun & Hok' & Hkept & _). eauto.
    + exists sc, st. split; [reflexivity |]. split; [exact Hok | apply nodes_kept_refl].
  - destruct (Num.gt (Script.lastMouseMove sc) (Script.lastRender sc)) eqn:Hgt.
    + destruct (on_frame_renders lines cols now sc st Hok Hgt)
        as (g' & st' & ops & Hrun & Hok' & Hkept & _).
      eexists _, _. split; [exact Hrun |]. split; [exact Hok' | exact Hkept].
    + exists sc, st. unfold on_frame. rewrite Hgt.
      split; [reflexivity |]. split; [exact Hok | apply nodes_kept_refl].
Qed.

Lemma run_ok (lines cols : nat) (events : list Event) :
  forall sc st,
    script_ok lines cols sc st ->
    exists sc' st',
      run events sc st = Some (sc', st') /\
      script_ok lines cols sc' st' /\
      nodes_kept (Script.grid sc) st (Script.grid sc') st'.
Proof.
  induction events as [| e events IH]; intros sc st Hok.
  - exists sc, st. split; [reflexivity |]. split; [exact Hok | apply nodes_kept_refl].
  - destruct (handle_ok lines cols e sc st Hok) as (sc1 & st1 & Hrun1 & Hok1 & Hkept1).
    destruct (IH sc1 st1 Hok1) as (sc2 & st2 & Hrun2 & Hok2 & Hkept2).
    exists sc2, st2. cbn [run]. rewrite (bind_run _ _ _ _ _ Hrun1).
    split; [exact Hrun2 |]. split; [exact Hok2 |].
    exact (nodes_kept_trans _ _ _ _ _ _ Hkept1 Hkept2).
Qed.

(** the start of the script *)
Lemma start_run (availWidth now : num) (lines cols : nat) st :
  array_length (grid_lines (grid_settings availWidth)) = Some lines ->
  array_length (grid_columns (grid_settings availWidth)) = Some cols ->
  exists sc st',
    start availWidth now st = Some (sc, st') /\
    script_ok lines cols sc st' /\
    Script.lastMouseMove sc = now /\
    Script.lastRender sc = Num.Fin 0 /\
    Script.listening sc = false /\
    at_rest (Script.grid sc) (heap st') /\
    ctx st' = ctx st.
Proof.
  intros Hlines Hcols.
  destruct (newGrid_result (grid_settings availWidth) st lines cols Hlines Hcols)
    as (g & st1 & Hrun & [_ _ _ _ _ _ Hctx] & Hwf & Hrest).
  unfold start. rewrite (bind_run _ _ _ _ _ Hrun).
  unfold alloc, bind, ret. cbn [heap randoms ctx].
  eexists _, _. split; [reflexivity |].
  cbn [heap ctx Script.lastMouseMove Script.lastRender Script.listening Script.grid].
  split; [split |]; cbn [Script.grid Script.mousePos heap].
  - apply grid_wf_app. exact Hwf.
  - apply lookup_lt_is_Some. rewrite length_app. simpl. lia.
  - intros i j n Hcell. destruct (wf_cur _ _ _ _ Hwf i j n Hcell) as [p Hp].
    apply lookup_lt_Some in Hp. lia.
  - split_and!; try reflexivity; [| exact Hctx]. intros i j n Hcell.
    destruct (Hrest i j n Hcell) as (p & Ho & Hc). exists p.
    split; now apply lookup_app_l_Some.
Qed.

(** X26: when the two array lengths of the grid are valid, the script
    never throws, whatever the host calls back and in whatever order:
    after the start and any sequence of timeouts, mouse moves and frames
    the grid is still well formed, the pointer is a point of the store
    apart from the nodes, and every node has the colors and the rest
    position that [newGrid] gave it. *)
Theorem script_never_throws (availWidth now : num) (lines cols : nat)
    (events : list Event) st :
  array_length (grid_lines (grid_settings availWidth)) = Some lines ->
  array_length (grid_columns (grid_settings availWidth)) = Some cols ->
  exists sc0 st0 sc st',
    start availWidth now st = Some (sc0, st0) /\
    run events sc0 st0 = Some (sc, st') /\
    (let* sc0 := start availWidth now in run events sc0) st = Some (sc, st') /\
    script_ok lines cols sc st' /\
    nodes_kept (Script.grid sc0) st0 (Script.grid sc) st'.
Proof.
  intros Hlines Hcols.
  destruct (start_run availWidth now lines cols st Hlines Hcols)
    as (sc0 & st0 & Hstart & Hok0 & _).
  destruct (run_ok lines cols events sc0 st0 Hok0) as (sc & st' & Hrun & Hok & Hkept).
  eexists _, st0, sc, st'. split; [exact Hstart |]. split; [exact Hrun |].
  split; [| split; [exact Hok | exact Hkept]].
  rewrite (bind_run _ _ _ _ _ Hstart). exact Hrun.
Qed.

(** X27: the first frame after the start draws the whole grid: the clock
    of the start is after 0, the time of the last rendering, so the frame
    animates the grid and fills one polygon for each of its
    [(lines-1) * (cols-1)] cells. *)
Theorem first_frame_draws_every_cell (availWidth : num) (t : R) (now : num)
    (lines cols : nat) st :
  array_length (grid_lines (grid_settings availWidth)) = Some lines ->
  array_length (grid_columns (grid_settings availWidth)) = Some cols ->
  (0 < t)%R ->
  exists sc st' ops,
    (let* sc0 := start availWidth (Num.Fin t) in handle (Frame now) sc0) st
    = Some (sc, st') /\
    ctx st' = ctx st ++ ops /\
    count_fills ops = (lines - 1) * (cols - 1) /\
    Script.lastRender sc = now.
Proof.
  intros Hlines Hcols Ht.
  destruct (start_run availWidth (Num.Fin t) lines cols st Hlines Hcols)
    as (sc0 & st0 & Hstart & Hok0 & Hmove & Hrender & _ & _ & Hctx0).
  destruct (on_frame_renders lines cols now sc0 st0 Hok0)
    as (g' & st' & ops & Hrun & _ & _ & Hctx & Hcount).
  { rewrite Hmove, Hrender. unfold Num.gt, Num.lt. now apply Rltb_true. }
  eexists _, st', ops. rewrite (bind_run _ _ _ _ _ Hstart). cbn [handle].
  split; [exact Hrun |]. split; [congruence |]. split; [exact Hcount | reflexivity].
Qed.

(** frames change nothing while no mouse move is newer than the last
    rendering *)
Lemma frames_idle (times : list num) sc st :
  Num.gt (Script.lastMouseMove sc) (Script.lastRender sc) = false ->
  run (map Frame times) sc st = Some (sc, st).
Proof.
  intros Hgt. induction times as [| t times IH]; [reflexivity |].
  cbn [map run handle]. unfold on_frame. rewrite Hgt.
  unfold bind at 1, ret at 1. exact IH.
Qed.

(** X28: the grid is redrawn only after mouse moves: once a frame has
    come at a time that is not before the last mouse move, the frames
    that follow it change neither the script nor the store, and send
    nothing to the canvas. *)
Theorem frames_idle_after_rendering (lines cols : nat) (m t : R) (times : list num) sc st :
  script_ok lines cols sc st ->
  Script.lastMouseMove sc = Num.Fin m ->
  (m <= t)%R ->
  exists sc' st',
    handle (Frame (Num.Fin t)) sc st = Some (sc', st') /\
    run (map Frame times) sc' st' = Some (sc', st').
Proof.
  intros Hok Hm Hle.
  destruct (Num.gt (Script.lastMouseMove sc) (Script.lastRender sc)) eqn:Hgt.
  - destruct (on_frame_renders lines cols (Num.Fin t) sc st Hok Hgt)
      as (g' & st' & ops & Hrun & _).
    eexists _, st'. split; [exact Hrun |]. apply frames_idle.
    cbn [Script.lastMouseMove Script.lastRender]. rewrite Hm.
    unfold Num.gt, Num.lt. now apply Rltb_false.
  - exists sc, st. cbn [handle]. unfold on_frame. rewrite Hgt.
    split; [reflexivity |]. now apply frames_idle.
Qed.


End DriverExtras.

(** ** The further results on the concrete runs *)

Section MoreConcreteRuns.
Local Open Scope R_scope.
#[local] Existing Instance example_host.

(** the settings of the script on a screen that is 200 wide: cells of 80 *)
Lemma script_gridSize : gridSize (grid_settings (Num.Fin 200)) = Num.Fin 80.
Proof.
  cbn [gridSize grid_settings]. unfold Num.div, Num.add.
  rewrite !Reqb_false by lra. f_equal. field.
Qed.

Lemma script_lines : array_length (grid_lines (grid_settings (Num.Fin 200))) = Some 10%nat.
Proof. unfold grid_lines. rewrite script_gridSize. exact example_lines. Qed.

Lemma script_columns :
  array_length (grid_columns (grid_settings (Num.Fin 200))) = Some 7%nat.
Proof. unfold grid_columns. rewrite script_gridSize. exact example_columns. Qed.

Lemma tiny_script_ok : script_ok 2 2 tiny_script (tiny_state (at_xy 51 0)).
Proof.
  split.
  - apply tiny_wf.
  - eexists. reflexivity.
  - intros i j n Hcell. exact (tiny_apart 8 (le_n 8) 8%nat i j n eq_refl Hcell).
Qed.

Lemma limit_clamps_example :
  (Num.PInf <> Num.NaN ->
   exists r, limit Num.PInf (Num.Fin 0) (Num.Fin 255) = Num.Fin r /\ 0 <= r <= 255) /\
  limit (limit Num.PInf (Num.Fin 0) (Num.Fin 255)) (Num.Fin 0) (Num.Fin 255)
  = limit Num.PInf (Num.Fin 0) (Num.Fin 255).
Proof. apply (limit_clamps Num.PInf 0 255). lra. Defined.

Lemma channel_of_infinity_example :
  Color.r (Color.set_r Num.PInf tiny_color) = Num.NaN /\
  Color.g (Color.set_g Num.PInf tiny_color) = Num.NaN /\
  Color.b (Color.set_b Num.PInf tiny_color) = Num.NaN.
Proof.
  apply (proj1 (channel_of_NaN_or_infinity tiny_color (Num.Fin 0) (Num.Fin 0)) Num.PInf).
  right. left. reflexivity.
Defined.

Lemma channel_is_truncated_example :
  Color.r (Color.set_r (Num.Fin (7 / 2)) tiny_color)
  = Num.of_Z (Z.max 0 (Z.min (Num.trunc (7 / 2)) 255)) /\
  Color.g (Color.set_g (Num.Fin (7 / 2)) tiny_color)
  = Num.of_Z (Z.max 0 (Z.min (Num.trunc (7 / 2)) 255)) /\
  Color.b (Color.set_b (Num.Fin (7 / 2)) tiny_color)
  = Num.of_Z (Z.max 0 (Z.min (Num.trunc (7 / 2)) 255)).
Proof.
  apply (channel_is_truncated (7 / 2) tiny_color).
  right. rewrite Rabs_pos_eq by lra. simpl. lra.
Defined.

Lemma getHexCode_injective_example :
  Color.mk (Num.of_Z 80) (Num.of_Z 9) (Num.of_Z 250)
  = Color.mk (Num.of_Z 80) (Num.of_Z 9) (Num.of_Z 250).
Proof.
  apply (getHexCode_injective _ _ example_color_valid example_color_valid eq_refl).
Defined.





Lemma newGrid_throws_example :
  newGrid {| gridSize := Num.Fin 0; posRandomness := Num.Fin 26; startColor := None;
             startColorRandomness := Num.Fin 10; overTimeColorRandomness := Num.Fin 5 |}
    initial_state = None.
Proof. apply newGrid_throws_without_cell_size. left. reflexivity. Defined.

Lemma newGrid_effects_example :
  exists g st' ext,
    newGrid example_settings initial_state = Some (g, st') /\
    heap st' = [] ++ ext /\
    length ext = (4 * (10 * 7))%nat /\
    randoms st' = (0 + 11 * (10 * 7))%nat /\
    ctx st' = [].
Proof.
  apply (newGrid_effects example_settings initial_state 10 7 example_lines example_columns).
Defined.

Lemma newGrid_well_formed_example :
  exists g st',
    newGrid example_settings initial_state = Some (g, st') /\ grid_wf 10 7 g (heap st').
Proof.
  apply (newGrid_well_formed example_settings initial_state 10 7 example_lines
           example_columns).
Defined.



Lemma animateGrid_keeps_border_tiny :
  exists g' st',
    animateGrid tiny_grid (pointer 8) (tiny_state (at_xy 51 0)) = Some (g', st') /\
    forall i j n, cell tiny_grid i j = Some n -> ~ animated 2 2 i j ->
      cell g' i j = Some n /\
      heap st' !! Node.currPos n = tiny_heap (at_xy 51 0) !! Node.currPos n.
Proof.
  apply (animateGrid_keeps_border (pointer 8) (Some (at_xy 3 4)) 2 2 tiny_grid
           (tiny_state (at_xy 51 0)) (tiny_wf _) eq_refl (tiny_apart 8 (le_n 8))).
Defined.

Lemma animateGrid_preserves_tiny :
  exists g' st',
    animateGrid tiny_grid (pointer 8) (tiny_state (at_xy 51 0)) = Some (g', st') /\
    grid_wf 2 2 g' (heap st') /\
    pointer_at (pointer 8) (Some (at_xy 3 4)) (heap st') /\
    pointer_apart (pointer 8) g' /\
    randoms st' = 0%nat /\
    ctx st' = [] /\
    forall i j n, cell tiny_grid i j = Some n ->
      exists n', cell g' i j = Some n' /\
                 Node._color n' = Node._color n /\ Node.color n' = Node.color n.
Proof.
  apply (animateGrid_preserves (pointer 8) (Some (at_xy 3 4)) 2 2 tiny_grid
           (tiny_state (at_xy 51 0)) (tiny_wf _) eq_refl (tiny_apart 8 (le_n 8))).
Defined.


Lemma animateGrid_twice_in_reach_tiny :
  exists g1 st1 n1 g2 st2 n2 p,
    animateGrid tiny_grid (pointer 8) (tiny_state (at_xy 51 0)) = Some (g1, st1) /\
    animateGrid g1 (pointer 8) st1 = Some (g2, st2) /\
    cell g1 0 0 = Some n1 /\ cell g2 0 0 = Some n2 /\
    heap st1 !! Node.currPos n1 = Some p /\
    heap st2 !! Node.currPos n2 = Some p.
Proof.
  refine (animateGrid_twice_in_reach (pointer 8) 2 2 tiny_grid
            (tiny_state (at_xy 51 0)) 0 0 (tiny_node 0 1) 0 0 3 4 (at_xy 51 0)
            (tiny_wf _) eq_refl (tiny_apart 8 (le_n 8)) tiny_animated tiny_cell_00
            eq_refl eq_refl _).
  rewrite gap_3_4. exact influence_5.
Defined.

Lemma fill_commands_example :
  fill (new_Polygon [1%nat; 0%nat] (Some tiny_color) None) (tiny_state (at_xy 51 0))
  = Some (tt, mkState (tiny_heap (at_xy 51 0)) 0
                ([] ++ fill_ops tiny_color None [at_xy 51 0; at_xy 0 0])).
Proof.
  apply (proj2 (fill_commands (new_Polygon [1%nat; 0%nat] (Some tiny_color) None)
                  [at_xy 51 0; at_xy 0 0] (tiny_state (at_xy 51 0)))).
  - discriminate.
  - repeat constructor.
Defined.

Lemma drawGrid_fills_every_cell_tiny :
  exists st' ops,
    drawGrid tiny_grid draw_settings (tiny_state (at_xy 51 0)) = Some (tt, st') /\
    heap st' = tiny_heap (at_xy 51 0) /\
    randoms st' = (0 + 3 * ((2 - 1) * (2 - 1)))%nat /\
    ctx st' = [] ++ ops /\
    count_fills ops = ((2 - 1) * (2 - 1))%nat /\
    (((2 - 1) * (2 - 1))%nat = 0%nat -> ops = []).
Proof.
  apply (drawGrid_fills_every_cell draw_settings 2 2 tiny_grid (tiny_state (at_xy 51 0))
           (tiny_wf _)).
Defined.


Lemma script_never_throws_example :
  let events :=
    [Frame (Num.Fin 2); Timeout;
     Move {| clientX := Num.Fin 110; clientY := Num.Fin 60;
             rect_left := Num.Fin 10; rect_top := Num.Fin 10;
             clientWidth := Num.Fin 800; clientHeight := Num.Fin 400 |} (Num.Fin 3);
     Frame (Num.Fin 4)] in
  exists sc0 st0 sc st',
    start (Num.Fin 200) (Num.Fin 1) initial_state = Some (sc0, st0) /\
    run events sc0 st0 = Some (sc, st') /\
    (let* sc0 := start (Num.Fin 200) (Num.Fin 1) in run events sc0) initial_state
    = Some (sc, st') /\
    script_ok 10 7 sc st' /\
    nodes_kept (Script.grid sc0) st0 (Script.grid sc) st'.
Proof.
  intros events.
  apply (script_never_throws (Num.Fin 200) (Num.Fin 1) 10 7 events initial_state
           script_lines script_columns).
Defined.

Lemma first_frame_draws_every_cell_example :
  exists sc st' ops,
    (let* sc0 := start (Num.Fin 200) (Num.Fin 1) in handle (Frame (Num.Fin 2)) sc0)
      initial_state
    = Some (sc, st') /\
    ctx st' = [] ++ ops /\
    count_fills ops = ((10 - 1) * (7 - 1))%nat /\
    Script.lastRender sc = Num.Fin 2.
Proof.
  apply (first_frame_draws_every_cell (Num.Fin 200) 1 (Num.Fin 2) 10 7 initial_state
           script_lines script_columns).
  lra.
Defined.

Lemma frames_idle_after_rendering_tiny :
  exists sc' st',
    handle (Frame (Num.Fin 2)) tiny_script (tiny_state (at_xy 51 0)) = Some (sc', st') /\
    run (map Frame [Num.Fin 3; Num.Fin 4]) sc' st' = Some (sc', st').
Proof.
  apply (frames_idle_after_rendering 2 2 1 2 [Num.Fin 3; Num.Fin 4] tiny_script
           (tiny_state (at_xy 51 0)) tiny_script_ok eq_refl).
  lra.
Defined.


End MoreConcreteRuns.
